(** * foundrygrid: the causal-graph engines

    A shallow embedding of the three graph classes of [src/CAUSAL_GRAPH]:

    - [Substrate]    : [CausalGraphSubstrate]     (causal-graph-substrate.js)
    - [Wave]         : [WaveResonanceCausalGraph] (wave-resonance-causal-graph.js)
    - [Reproductive] : [ReproductiveCausalGraph]  (reproductive-causal-graph.js)

    Conventions.  A JavaScript [Map] is an association list in insertion
    order; objects used as records are Rocq records whose optional
    properties are [option]s ([None] is [undefined]).  Numbers are exact:
    rationals where values are only added, multiplied and compared, reals
    where the source needs [Math.sin], [Math.cos] and [Math.PI].  [Date.now()]
    and [Math.random()] are inputs of the functions that read them.  A method
    is a function from the object's state to the new state and a
    [Completion]: a normal return or a thrown error. *)

From Stdlib Require Import List String Ascii Bool Arith ZArith QArith Qminmax.
From Stdlib Require Import Qabs Qround Lia Lqa DecimalString Reals Lra.
Import ListNotations.

(** ** JavaScript values shared by the three classes *)

Module JS.

Record JSError := mkError { err_name : string; err_message : string }.

Definition TypeError (message : string) : JSError :=
  mkError "TypeError" message.

Inductive Completion (A : Type) : Type :=
| Normal (a : A)
| Throw (e : JSError).
Arguments Normal {A} a.
Arguments Throw {A} e.

Definition threw {A} (c : Completion A) (name : string) : Prop :=
  exists message, c = Throw (mkError name message).

Inductive JSValue : Type :=
| JUndefined
| JNull
| JBool (b : bool)
| JNum (q : Q)
| JStr (s : string).

(** [a === b] on primitive values. *)
Definition strict_eq (a b : JSValue) : bool :=
  match a, b with
  | JUndefined, JUndefined => true
  | JNull, JNull => true
  | JBool x, JBool y => Bool.eqb x y
  | JNum x, JNum y => Qeq_bool x y
  | JStr x, JStr y => String.eqb x y
  | _, _ => false
  end.

Section MapOps.
Context {V : Type}.

(** [m.get(k)] *)
Fixpoint map_get (k : string) (m : list (string * V)) : option V :=
  match m with
  | [] => None
  | (k', v) :: rest => if String.eqb k' k then Some v else map_get k rest
  end.

(** [m.has(k)] *)
Definition map_has (k : string) (m : list (string * V)) : bool :=
  match map_get k m with Some _ => true | None => false end.

(** [m.set(k, v)]: an existing key keeps its place. *)
Fixpoint map_set (k : string) (v : V) (m : list (string * V))
  : list (string * V) :=
  match m with
  | [] => [(k, v)]
  | (k', v') :: rest =>
      if String.eqb k' k then (k, v) :: rest
      else (k', v') :: map_set k v rest
  end.

(** [m.values()] *)
Definition map_values (m : list (string * V)) : list V := map snd m.

(** The same keys in the same order, each value seen through [f]. *)
Definition on_values {W : Type} (f : V -> W) (m : list (string * V))
  : list (string * W) :=
  map (fun kv => (fst kv, f (snd kv))) m.
End MapOps.

(** A plain object used as a dictionary; a missing key reads [undefined]. *)
Definition Obj : Type := list (string * JSValue).

Definition obj_get (k : string) (o : Obj) : JSValue :=
  match map_get k o with Some v => v | None => JUndefined end.

(** [set.add(x)] on a [Set] of strings. *)
Definition set_add (x : string) (s : list string) : list string :=
  if existsb (String.eqb x) s then s else s ++ [x].

(** [`${n}`] for an integer. *)
Definition show_int (n : Z) : string :=
  NilZero.string_of_int (Z.to_int n).

End JS.

(** ** CausalGraphSubstrate *)

Module Substrate.
Import JS.
Local Open Scope string_scope.
Local Open Scope list_scope.
Local Open Scope Q_scope.

(** What a handler sees of the node it runs on. *)
Record NodeView := mkNodeView {
  view_id : string;
  view_type : string;
  view_data : Obj;
  view_activation : Q;
  view_lastFired : option Z;
  view_metadata : Obj
}.

(** A handler is called synchronously with [(signal, metadata, node)].  It
    returns a value or throws; the handlers of the repository write to
    [node.data] only, so that is the effect a handler has here. *)
Inductive HandlerOutcome : Type :=
| HReturn (result : JSValue) (data' : Obj)
| HThrow (data' : Obj).

Definition Handler : Type := Q -> Obj -> NodeView -> HandlerOutcome.

Record Node := mkNode {
  node_id : string;
  node_type : string;
  node_data : Obj;
  handlers : list (string * Handler);
  activation : Q;
  lastFired : option Z;
  node_metadata : Obj
}.

Definition view (n : Node) : NodeView :=
  mkNodeView (node_id n) (node_type n) (node_data n) (activation n)
             (lastFired n) (node_metadata n).

Record NodeConfig := mkNodeConfig {
  cfg_type : option string;
  cfg_data : option Obj;
  cfg_handlers : option (list (string * Handler));
  cfg_metadata : option Obj;
  cfg_groups : option (list string)
}.

Record Message := mkMessage {
  msg_id : string;
  msg_from : option string;
  msg_to : string;
  msg_signal : Q;
  msg_metadata : Obj;
  msg_timestamp : Z;
  msg_path : list string
}.

(** [edge.conditions] is a predicate on the message or an object of
    key/value pairs matched against the message's metadata. *)
Inductive Conditions : Type :=
| CondFn (f : Message -> bool)
| CondObj (o : Obj).

Record Edge := mkEdge {
  edge_id : string;
  edge_from : string;
  edge_to : string;
  strength : Q;
  delay : Q;
  conditions : option Conditions;
  transform : option (Q -> Obj -> Q);
  bidirectional : bool;
  edge_metadata : Obj
}.

Record EdgeConfig := mkEdgeConfig {
  ecfg_from : string;
  ecfg_to : string;
  ecfg_strength : option Q;
  ecfg_delay : option Q;
  ecfg_conditions : option Conditions;
  ecfg_transform : option (Q -> Obj -> Q);
  ecfg_bidirectional : option bool;
  ecfg_metadata : option Obj
}.

Record ActivationResult := mkResult {
  res_nodeId : string;
  res_activation : Q;
  res_handlerResults : Obj;
  res_timestamp : Z
}.

Record Pattern := mkPattern {
  count : nat;
  pat_strength : list Q
}.

(** [reason] is a message built from the count and the average; the two
    interpolated values stand for it. *)
Record Proposal := mkProposal {
  prop_from : string;
  prop_to : string;
  prop_strength : Q;
  confidence : Q;
  reason : nat * Q
}.

(** The fields of the object, and [timers]: the callbacks this object has
    handed to [setTimeout] that have not run yet, each with its delay and
    the message it will push. *)
Record Substrate := mkSubstrate {
  nodes : list (string * Node);
  edges : list (string * Edge);
  messageQueue : list Message;
  observedPatterns : list (string * Pattern);
  proposedEdges : list Proposal;
  nodeGroups : list (string * list string);
  timers : list (Q * Message)
}.

Definition empty : Substrate := mkSubstrate [] [] [] [] [] [] [].

Definition set_nodes (v : list (string * Node)) (s : Substrate) :=
  mkSubstrate v (edges s) (messageQueue s) (observedPatterns s)
              (proposedEdges s) (nodeGroups s) (timers s).
Definition set_edges (v : list (string * Edge)) (s : Substrate) :=
  mkSubstrate (nodes s) v (messageQueue s) (observedPatterns s)
              (proposedEdges s) (nodeGroups s) (timers s).
Definition set_messageQueue (v : list Message) (s : Substrate) :=
  mkSubstrate (nodes s) (edges s) v (observedPatterns s)
              (proposedEdges s) (nodeGroups s) (timers s).
Definition set_observedPatterns (v : list (string * Pattern)) (s : Substrate) :=
  mkSubstrate (nodes s) (edges s) (messageQueue s) v
              (proposedEdges s) (nodeGroups s) (timers s).
Definition set_proposedEdges (v : list Proposal) (s : Substrate) :=
  mkSubstrate (nodes s) (edges s) (messageQueue s) (observedPatterns s)
              v (nodeGroups s) (timers s).
Definition set_nodeGroups (v : list (string * list string)) (s : Substrate) :=
  mkSubstrate (nodes s) (edges s) (messageQueue s) (observedPatterns s)
              (proposedEdges s) v (timers s).
Definition set_timers (v : list (Q * Message)) (s : Substrate) :=
  mkSubstrate (nodes s) (edges s) (messageQueue s) (observedPatterns s)
              (proposedEdges s) (nodeGroups s) v.

(** [x || d] for an optional string, object, number. *)
Definition or_string (x : option string) (d : string) : string :=
  match x with
  | Some s => if String.eqb s "" then d else s
  | None => d
  end.

Definition or_default {A} (x : option A) (d : A) : A :=
  match x with Some a => a | None => d end.

Definition or_number (x : option Q) (d : Q) : Q :=
  match x with
  | Some q => if Qeq_bool q 0 then d else q
  | None => d
  end.

(** *** registerNode(id, config) *)

Definition add_to_groups (id : string) (groups : list string)
           (g : list (string * list string)) : list (string * list string) :=
  fold_left
    (fun g group =>
       let g := if map_has group g then g else map_set group [] g in
       map_set group (set_add id (or_default (map_get group g) [])) g)
    groups g.

(** [config] is [None] when the caller passes no object: reading
    [config.type] then throws before anything is stored. *)
Definition registerNode (s : Substrate) (id : string)
           (config : option NodeConfig) : Substrate * Completion unit :=
  match config with
  | None =>
      (s, Throw (TypeError "Cannot read properties of undefined (reading 'type')"))
  | Some config =>
      let node :=
        mkNode id
               (or_string (cfg_type config) "generic")
               (or_default (cfg_data config) [])
               (or_default (cfg_handlers config) [])
               0
               None
               (or_default (cfg_metadata config) []) in
      let s := set_nodes (map_set id node (nodes s)) s in
      let s :=
        match cfg_groups config with
        | Some groups => set_nodeGroups (add_to_groups id groups (nodeGroups s)) s
        | None => s
        end in
      (s, Normal tt)
  end.

(** *** registerCausalEdge(id, config) *)

Definition registerCausalEdge (s : Substrate) (id : string)
           (config : option EdgeConfig) : Substrate * Completion unit :=
  match config with
  | None =>
      (s, Throw (TypeError "Cannot read properties of undefined (reading 'from')"))
  | Some config =>
      let edge :=
        mkEdge id
               (ecfg_from config)
               (ecfg_to config)
               (or_number (ecfg_strength config) 1)
               (or_number (ecfg_delay config) 0)
               (ecfg_conditions config)
               (ecfg_transform config)
               (or_default (ecfg_bidirectional config) false)
               (or_default (ecfg_metadata config) []) in
      (set_edges (map_set id edge (edges s)) s, Normal tt)
  end.

(** *** _activateNode(nodeId, signal, metadata) *)

Definition set_data (n : Node) (d : Obj) : Node :=
  mkNode (node_id n) (node_type n) d (handlers n) (activation n)
         (lastFired n) (node_metadata n).

(** The loop over [Object.entries(node.handlers)]: a handler that throws
    is caught and leaves no entry in [handlerResults]. *)
Fixpoint run_handlers (hs : list (string * Handler)) (signal : Q)
         (metadata : Obj) (n : Node) (handlerResults : Obj) : Node * Obj :=
  match hs with
  | [] => (n, handlerResults)
  | (handlerName, handler) :: rest =>
      match handler signal metadata (view n) with
      | HReturn r d =>
          run_handlers rest signal metadata (set_data n d)
                       (map_set handlerName r handlerResults)
      | HThrow d =>
          run_handlers rest signal metadata (set_data n d) handlerResults
      end
  end.

(** Returns [None] for the [null] of a node that is not registered. *)
Definition _activateNode (s : Substrate) (nodeId : string) (signal : Q)
           (metadata : Obj) (now : Z) : Substrate * option ActivationResult :=
  match map_get nodeId (nodes s) with
  | None => (s, None)
  | Some node =>
      let node :=
        mkNode (node_id node) (node_type node) (node_data node)
               (handlers node)
               (Qmin 1 (activation node + signal))
               (Some now)
               (node_metadata node) in
      let '(node, handlerResults) :=
        run_handlers (handlers node) signal metadata node [] in
      (set_nodes (map_set nodeId node (nodes s)) s,
       Some (mkResult nodeId (activation node) handlerResults now))
  end.

(** *** _findOutgoingEdges(nodeId) *)

Definition reverse_edge (e : Edge) : Edge :=
  mkEdge (edge_id e) (edge_to e) (edge_from e) (strength e) (delay e)
         (conditions e) (transform e) (bidirectional e) (edge_metadata e).

Definition _findOutgoingEdges (s : Substrate) (nodeId : string) : list Edge :=
  flat_map
    (fun edge =>
       (if String.eqb (edge_from edge) nodeId then [edge] else [])
       ++ (if bidirectional edge && String.eqb (edge_to edge) nodeId
           then [reverse_edge edge] else []))
    (map_values (edges s)).

(** *** _evaluateConditions(conditions, message) *)

Definition _evaluateConditions (c : Conditions) (message : Message) : bool :=
  match c with
  | CondFn f => f message
  | CondObj o =>
      forallb (fun kv => strict_eq (obj_get (fst kv) (msg_metadata message)) (snd kv)) o
  end.

(** *** propagate(sourceNodeId, signal, metadata) *)

(** [`prop_${Date.now()}_${Math.random()}`]; [rnd] is the random number as
    printed. *)
Definition propagationId (now : Z) (rnd : string) : string :=
  ("prop_" ++ show_int now ++ "_" ++ rnd)%string.

Definition visitKey (to propagationId : string) : string :=
  (to ++ "_" ++ propagationId)%string.

(** The contents of [visited] after the nodes [seen] have been visited. *)
Definition keys (pid : string) (seen : list string) : list string :=
  map (fun t => visitKey t pid) seen.

(** One turn of [for (const edge of outgoingEdges)]: the push of the new
    message is wrapped in [setTimeout], so the turn adds a timer and
    leaves [messageQueue] alone. *)
Definition schedule_edge (pid : string) (msg : Message)
           (pending : list (Q * Message)) (edge : Edge) : list (Q * Message) :=
  if match conditions edge with
     | Some c => negb (_evaluateConditions c msg)
     | None => false
     end
  then pending
  else
    let newSignal := msg_signal msg * strength edge in
    let newSignal :=
      match transform edge with
      | Some f => f newSignal (msg_metadata msg)
      | None => newSignal
      end in
    pending ++
    [(delay edge,
      mkMessage pid (Some (msg_to msg)) (edge_to edge) newSignal
                (map_set "edge" (JStr (edge_id edge)) (msg_metadata msg))
                0
                (msg_path msg ++ [edge_to edge]))].

(** [while (this.messageQueue.length > 0)]: [queue] is [this.messageQueue]
    at the top of a turn.  Nothing is pushed to it while the loop runs
    (timers only run after the call has returned), so the loop ends when
    the messages that were queued at the call are used up. *)
Fixpoint drain (pid : string) (now : Z) (queue : list Message)
         (visited : list string) (s : Substrate)
  : Substrate * list (option ActivationResult) :=
  match queue with
  | [] => (set_messageQueue [] s, [])
  | msg :: rest =>
      let s := set_messageQueue rest s in
      let key := visitKey (msg_to msg) pid in
      if existsb (String.eqb key) visited then drain pid now rest visited s
      else
        let '(s, result) :=
          _activateNode s (msg_to msg) (msg_signal msg) (msg_metadata msg) now in
        let outgoingEdges := _findOutgoingEdges s (msg_to msg) in
        let s := set_timers (fold_left (schedule_edge pid msg) outgoingEdges (timers s)) s in
        let '(s, results) := drain pid now rest (visited ++ [key]) s in
        (s, result :: results)
  end.

(** *** _learnPattern(sourceNode, results) *)

Definition patternKey (sourceNode nodeId : string) : string :=
  (sourceNode ++ "→" ++ nodeId)%string.

Definition sumQ (l : list Q) : Q := fold_left Qplus l 0.

Definition edgeExists (s : Substrate) (from to : string) : bool :=
  existsb (fun e => String.eqb (edge_from e) from && String.eqb (edge_to e) to)
          (map_values (edges s)).

Definition learn_one (sourceNode : string) (s : Substrate)
           (result : option ActivationResult) : Substrate :=
  match result with
  | None => s
  | Some result =>
      let pattern := patternKey sourceNode (res_nodeId result) in
      let before := or_default (map_get pattern (observedPatterns s))
                               (mkPattern 0 []) in
      let observed := mkPattern (S (count before))
                                (pat_strength before ++ [res_activation result]) in
      let s := set_observedPatterns (map_set pattern observed (observedPatterns s)) s in
      if (5 <? count observed)%nat then
        let avgStrength :=
          sumQ (pat_strength observed) / inject_Z (Z.of_nat (List.length (pat_strength observed))) in
        if negb (edgeExists s sourceNode (res_nodeId result))
           && negb (Qle_bool avgStrength 0.3)
        then
          set_proposedEdges
            (proposedEdges s ++
             [mkProposal sourceNode (res_nodeId result) avgStrength
                         (inject_Z (Z.of_nat (count observed)) / 10)
                         (count observed, avgStrength)])
            s
        else s
      else s
  end.

Definition _learnPattern (s : Substrate) (sourceNode : string)
           (results : list (option ActivationResult)) : Substrate :=
  fold_left (learn_one sourceNode) results s.

Record PropagationResult := mkPropagationResult {
  res_propagationId : string;
  activatedNodes : list string;
  finalStates : list ActivationResult
}.

(** [results.map(r => r.nodeId)] reads a property of [null] when some
    visited id was not registered. *)
Fixpoint all_results (results : list (option ActivationResult))
  : option (list ActivationResult) :=
  match results with
  | [] => Some []
  | None :: _ => None
  | Some r :: rest =>
      match all_results rest with
      | Some rs => Some (r :: rs)
      | None => None
      end
  end.

Definition propagate (s : Substrate) (sourceNodeId : string) (signal : Q)
           (metadata : Obj) (now : Z) (rnd : string)
  : Substrate * Completion PropagationResult :=
  let pid := propagationId now rnd in
  let queue :=
    messageQueue s ++
    [mkMessage pid None sourceNodeId signal metadata now [sourceNodeId]] in
  let '(s, results) := drain pid now queue [] (set_messageQueue queue s) in
  let s := _learnPattern s sourceNodeId results in
  match all_results results with
  | Some rs => (s, Normal (mkPropagationResult pid (map res_nodeId rs) rs))
  | None =>
      (s, Throw (TypeError "Cannot read properties of null (reading 'nodeId')"))
  end.

(** *** The host's timers

    Between two calls the host runs the callbacks whose delay has expired.
    [runTimers] runs all that are pending, the shorter delay first and in
    the order of their [setTimeout] among equal delays; each pushes its
    message, stamped with the time it runs at. *)
Fixpoint insert_timer (t : Q * Message) (l : list (Q * Message)) :=
  match l with
  | [] => [t]
  | t' :: rest =>
      if Qle_bool (fst t') (fst t) then t' :: insert_timer t rest
      else t :: t' :: rest
  end.

Definition by_expiry (l : list (Q * Message)) : list (Q * Message) :=
  fold_left (fun acc t => insert_timer t acc) l [].

Definition stamp (now : Z) (m : Message) : Message :=
  mkMessage (msg_id m) (msg_from m) (msg_to m) (msg_signal m)
            (msg_metadata m) now (msg_path m).

Definition runTimers (s : Substrate) (now : Z) : Substrate :=
  set_timers []
    (set_messageQueue
       (messageQueue s ++ map (fun t => stamp now (snd t)) (by_expiry (timers s))) s).

(** *** broadcast(groupName, signal, metadata) *)

Fixpoint broadcast_members (s : Substrate) (members : list string) (signal : Q)
         (metadata : Obj) (now : Z) (rnd : nat -> string) (i : nat)
  : Substrate * Completion (list PropagationResult) :=
  match members with
  | [] => (s, Normal [])
  | nodeId :: rest =>
      match propagate s nodeId signal metadata now (rnd i) with
      | (s, Throw e) => (s, Throw e)
      | (s, Normal r) =>
          match broadcast_members s rest signal metadata now rnd (S i) with
          | (s, Throw e) => (s, Throw e)
          | (s, Normal rs) => (s, Normal (r :: rs))
          end
      end
  end.

Definition broadcast (s : Substrate) (groupName : string) (signal : Q)
           (metadata : Obj) (now : Z) (rnd : nat -> string)
  : Substrate * Completion (list PropagationResult) :=
  match map_get groupName (nodeGroups s) with
  | None => (s, Normal [])
  | Some group =>
      broadcast_members s group signal
                        (map_set "broadcast" (JStr groupName) metadata) now rnd 0
  end.

(** *** getProposedEvolutions() *)


(** *** Sequences of calls on one object *)

Inductive Call : Type :=
| RegisterNode (id : string) (config : option NodeConfig)
| RegisterCausalEdge (id : string) (config : option EdgeConfig)
| Propagate (sourceNodeId : string) (signal : Q) (metadata : Obj)
            (now : Z) (rnd : string)
| Broadcast (groupName : string) (signal : Q) (metadata : Obj)
            (now : Z) (rnd : nat -> string)
| RunTimers (now : Z).

Definition call (s : Substrate) (c : Call) : Substrate :=
  match c with
  | RegisterNode id config => fst (registerNode s id config)
  | RegisterCausalEdge id config => fst (registerCausalEdge s id config)
  | Propagate src signal metadata now rnd =>
      fst (propagate s src signal metadata now rnd)
  | Broadcast group signal metadata now rnd =>
      fst (broadcast s group signal metadata now rnd)
  | RunTimers now => runTimers s now
  end.

Definition calls (s : Substrate) (cs : list Call) : Substrate :=
  fold_left call cs s.

(** The activation of a node, and its change between two states. *)
Definition activation_of (s : Substrate) (id : string) : option Q :=
  option_map activation (map_get id (nodes s)).

Definition activations (s : Substrate) : list (string * Q) :=
  on_values activation (nodes s).





(** The ids of the nodes activated in a list of results. *)
Definition result_ids (results : list (option ActivationResult)) : list string :=
  flat_map (fun r => match r with Some r => [res_nodeId r] | None => [] end)
           results.






(** [n] times: [propagate(src, signal, metadata)], then the timers it
    left.  Returns the last state and what each call returned. *)
Fixpoint runs (n : nat) (s : Substrate) (src : string) (signal : Q)
         (metadata : Obj) (now : Z) (rnd : string)
  : Substrate * list (Completion PropagationResult) :=
  match n with
  | O => (s, [])
  | S n =>
      let '(s, c) := propagate s src signal metadata now rnd in
      let '(s, cs) := runs n (runTimers s now) src signal metadata now rnd in
      (s, c :: cs)
  end.



(** *** Graphs of the scenarios *)

(** [registerNode(id, {})] and
    [registerCausalEdge(id, { from, to, strength })]. *)
Definition plain : option NodeConfig :=
  Some (mkNodeConfig None None None None None).

Definition link (from to : string) (w : Q) : option EdgeConfig :=
  Some (mkEdgeConfig from to (Some w) None None None None None).

Definition chain : Substrate :=
  calls empty
        [RegisterNode "A" plain; RegisterNode "B" plain; RegisterNode "C" plain;
         RegisterCausalEdge "ab" (link "A" "B" 0.8);
         RegisterCausalEdge "bc" (link "B" "C" 0.5)].

Definition cycle : Substrate :=
  calls empty
        [RegisterNode "A" plain; RegisterNode "B" plain;
         RegisterCausalEdge "ab" (link "A" "B" 1);
         RegisterCausalEdge "ba" (link "B" "A" 1)].

(** A and B with the single edge B -> B, after one [propagate('B', 1.0)]
    whose timer has run: a message for B is queued, and no edge leaves A. *)
Definition echo : Substrate :=
  calls empty
        [RegisterNode "A" plain; RegisterNode "B" plain;
         RegisterCausalEdge "bb" (link "B" "B" 1);
         Propagate "B" 1 [] 0 "0.25"; RunTimers 1].

(** Five times [propagate('A', 1.0, {})], the timers running in between. *)
Definition five_times_A : list Call :=
  [Propagate "A" 1 [] 10 "0.11"; RunTimers 11;
   Propagate "A" 1 [] 20 "0.22"; RunTimers 21;
   Propagate "A" 1 [] 30 "0.33"; RunTimers 31;
   Propagate "A" 1 [] 40 "0.44"; RunTimers 41;
   Propagate "A" 1 [] 50 "0.55"; RunTimers 51].

(** *** approveEvolution(edgeIndex)

    [evolutionHistory] is the one field of the object that the record above
    leaves out; it goes with the rest here. *)

Record EvolutionEvent := mkEvent {
  ev_timestamp : Z;
  ev_type : string;
  ev_edge : string;
  ev_reason : nat * Q
}.

Record Evolving := mkEvolving {
  substrate : Substrate;
  evolutionHistory : list EvolutionEvent
}.

(** [x.toFixed(2)] of the exact value: the nearest hundredth, the larger
    one on a tie. *)
Definition two_digits (n : Z) : string :=
  if (n <? 10)%Z then ("0" ++ show_int n)%string else show_int n.

Definition toFixed2 (x : Q) : string :=
  let n := Qfloor (Qabs x * 100 + 0.5) in
  ((if Qle_bool 0 x then "" else "-")
     ++ show_int (n / 100) ++ "." ++ two_digits (n mod 100))%string.

(** The text of a proposal's [reason]. *)
Definition reason_text (r : nat * Q) : string :=
  ("Observed " ++ show_int (Z.of_nat (fst r)) ++ " times with avg strength "
     ++ toFixed2 (snd r))%string.

(** [list.splice(i, 1)] *)
Fixpoint splice1 {A : Type} (i : nat) (l : list A) : list A :=
  match l, i with
  | [], _ => []
  | _ :: rest, O => rest
  | x :: rest, S i => x :: splice1 i rest
  end.

Definition approveEvolution (o : Evolving) (edgeIndex : nat) (now : Z) : Evolving :=
  match nth_error (proposedEdges (substrate o)) edgeIndex with
  | None => o
  | Some proposed =>
      let edgeId := ("evolved_" ++ show_int now)%string in
      let s :=
        fst (registerCausalEdge
               (substrate o) edgeId
               (Some (mkEdgeConfig
                        (prop_from proposed) (prop_to proposed)
                        (Some (prop_strength proposed)) None None None None
                        (Some [("evolved", JBool true);
                               ("confidence", JNum (confidence proposed));
                               ("reason", JStr (reason_text (reason proposed)))])))) in
      mkEvolving
        (set_proposedEdges (splice1 edgeIndex (proposedEdges s)) s)
        (evolutionHistory o ++
         [mkEvent now "edge_added" edgeId (reason proposed)])
  end.

(** *** What the properties below speak of *)


(** The proposals pending for the pair [from], [to]. *)
Definition pending (s : Substrate) (from to : string) : list Proposal :=
  filter (fun p => String.eqb (prop_from p) from && String.eqb (prop_to p) to)
         (proposedEdges s).

Definition is_registerCausalEdge (c : Call) : bool :=
  match c with RegisterCausalEdge _ _ => true | _ => false end.



(** [x] is in the group. *)
Definition member (g : list (string * list string)) (group x : string) : Prop :=
  exists ms, map_get group g = Some ms /\ In x ms.

(** One turn of the loop over [config.groups] in [registerNode]. *)
Definition join (id : string) (g : list (string * list string)) (group : string) :=
  let g := if map_has group g then g else map_set group [] g in
  map_set group (set_add id (or_default (map_get group g) [])) g.

(** The chain after one [propagate('A', 1.0, {})] whose timer has run. *)
Definition chain_after_one_run : Substrate :=
  calls chain [Propagate "A" 1 [] 3 "0.3"; RunTimers 4].

(** [echo] after six more [propagate('A', 1.0, {})]: the pairs A, B and
    A, A have been proposed. *)
Definition echo_after_six : Evolving :=
  mkEvolving (fst (runs 6 echo "A" 1 [] 2 "0.5")) [].

(** A node of two groups, one named twice. *)
Definition grouped : option NodeConfig :=
  Some (mkNodeConfig None None None None (Some ["gates"; "hd"; "gates"])).

End Substrate.

(** ** WaveResonanceCausalGraph *)

Module Wave.
Import JS.
Local Open Scope string_scope.
Local Open Scope list_scope.
Local Open Scope R_scope.

(** A handler is called with [(amplitude, { sourceFreq, resonance })]; what
    it returns is dropped, and an error it throws leaves the timestep. *)
Inductive HandlerOutcome : Type :=
| HDone
| HThrows (e : JSError).

Definition Handler : Type := R -> R -> R -> HandlerOutcome.

Record Node := mkNode {
  node_id : string;
  gate : R;
  line : option R;
  color : option R;
  tone : option R;
  field : option string;
  frequency : R;
  phase : R;
  amplitude : R;
  waveform : string;
  handler : option Handler;
  groups : list string;
  node_metadata : Obj
}.

Record NodeConfig := mkNodeConfig {
  cfg_gate : R;
  cfg_line : option R;
  cfg_color : option R;
  cfg_tone : option R;
  cfg_field : option string;
  cfg_waveform : option string;
  cfg_handler : option Handler;
  cfg_groups : option (list string);
  cfg_metadata : option Obj
}.

Record Edge := mkEdge {
  edge_id : string;
  edge_from : string;
  edge_to : string;
  strength : R;
  phaseShift : R;
  harmonicResonance : R;
  bidirectional : bool
}.

Record EdgeConfig := mkEdgeConfig {
  ecfg_from : string;
  ecfg_to : string;
  ecfg_strength : option R;
  ecfg_phaseShift : option R;
  ecfg_bidirectional : option bool
}.

(** [reason] is a message built from the two frequencies and the ratio,
    which stand for it. *)
Record Resonance := mkResonance {
  res_from : string;
  res_to : string;
  resonance : R;
  freqRatio : R;
  reason : R * R * R
}.

Record Graph := mkGraph {
  baseFrequency : R;
  sampleRate : R;
  time : R;
  nodes : list (string * Node);
  edges : list (string * Edge);
  fieldState : list (string * R);
  proposedResonances : list Resonance
}.

(** The constructor. *)
Definition empty : Graph := mkGraph 220 1000 0 [] [] [] [].

Definition set_time (v : R) (g : Graph) :=
  mkGraph (baseFrequency g) (sampleRate g) v (nodes g) (edges g)
          (fieldState g) (proposedResonances g).
Definition set_nodes (v : list (string * Node)) (g : Graph) :=
  mkGraph (baseFrequency g) (sampleRate g) (time g) v (edges g)
          (fieldState g) (proposedResonances g).
Definition set_edges (v : list (string * Edge)) (g : Graph) :=
  mkGraph (baseFrequency g) (sampleRate g) (time g) (nodes g) v
          (fieldState g) (proposedResonances g).
Definition set_fieldState (v : list (string * R)) (g : Graph) :=
  mkGraph (baseFrequency g) (sampleRate g) (time g) (nodes g) (edges g)
          v (proposedResonances g).
Definition set_proposedResonances (v : list Resonance) (g : Graph) :=
  mkGraph (baseFrequency g) (sampleRate g) (time g) (nodes g) (edges g)
          (fieldState g) v.

Definition set_amplitude (n : Node) (a : R) : Node :=
  mkNode (node_id n) (gate n) (line n) (color n) (tone n) (field n)
         (frequency n) (phase n) a (waveform n) (handler n) (groups n)
         (node_metadata n).

Definition set_phase (n : Node) (p : R) : Node :=
  mkNode (node_id n) (gate n) (line n) (color n) (tone n) (field n)
         (frequency n) p (amplitude n) (waveform n) (handler n) (groups n)
         (node_metadata n).

Definition or_default {A} (x : option A) (d : A) : A :=
  match x with Some a => a | None => d end.

(** [x || d] for a number and for a string. *)
Definition or_number (x : option R) (d : R) : R :=
  match x with
  | Some r => if Req_dec_T r 0 then d else r
  | None => d
  end.

Definition or_string (x : option string) (d : string) : string :=
  match x with
  | Some s => if String.eqb s "" then d else s
  | None => d
  end.

(** *** _calculateFrequency(gate, line = 3, color = 3, tone = 3) *)

Definition _calculateFrequency (g : Graph) (gate : R) (line color tone : option R) : R :=
  let gateMultiplier := 1 + gate / 64 in
  let lineMultiplier := 1 + or_default line 3 / 12 in
  let colorMultiplier := 1 + or_default color 3 / 60 in
  let toneMultiplier := 1 + or_default tone 3 / 120 in
  let frequency :=
    baseFrequency g * gateMultiplier * lineMultiplier * colorMultiplier
    * toneMultiplier in
  Rmax 200 (Rmin 2000 frequency).

(** *** _getFieldHarmonic(field) *)

Definition harmonics : list (string * R) :=
  [("Mind", 1.5); ("Heart", 1.0); ("Body", 0.75);
   ("Shadow", 0.5); ("Light", 2.0); ("Neutral", 1.25);
   ("Sun", 1.618); ("Moon", 1.414); ("Mercury", 1.732)].

Definition _getFieldHarmonic (field : option string) : R :=
  match field with
  | Some f => or_number (map_get f harmonics) 1.0
  | None => 1.0
  end.

(** *** registerNode(id, config); [rnd] is what [Math.random()] returns *)

Definition registerNode (g : Graph) (id : string) (config : NodeConfig) (rnd : R)
  : Graph :=
  let frequency :=
    _calculateFrequency g (cfg_gate config) (cfg_line config)
                        (cfg_color config) (cfg_tone config) in
  let fieldHarmonic := _getFieldHarmonic (cfg_field config) in
  let node :=
    mkNode id (cfg_gate config) (cfg_line config) (cfg_color config)
           (cfg_tone config) (cfg_field config)
           (frequency * fieldHarmonic)
           (rnd * PI * 2)
           0
           (or_string (cfg_waveform config) "sine")
           (cfg_handler config)
           (or_default (cfg_groups config) [])
           (or_default (cfg_metadata config) []) in
  set_fieldState (map_set id 0 (fieldState g))
                 (set_nodes (map_set id node (nodes g)) g).

(** *** _calculateHarmonicResonance(freqRatio) *)

Definition ratios : list (R * R) :=
  [(1, 1.0); (2, 0.9); (1.5, 0.8); (1.333, 0.7); (1.25, 0.6); (1.618, 0.75)].

Definition _calculateHarmonicResonance (freqRatio : R) : R :=
  fold_left
    (fun bestResonance rs =>
       let diff := Rabs (freqRatio - fst rs) in
       if Rlt_dec diff 0.05
       then Rmax bestResonance (snd rs * (1 - diff))
       else bestResonance)
    ratios 0.

(** *** registerResonanceEdge(id, config) *)

Definition registerResonanceEdge (g : Graph) (id : string) (config : EdgeConfig)
  : Graph :=
  match map_get (ecfg_from config) (nodes g), map_get (ecfg_to config) (nodes g) with
  | Some fromNode, Some toNode =>
      let freqRatio := frequency toNode / frequency fromNode in
      let harmonicResonance := _calculateHarmonicResonance freqRatio in
      set_edges
        (map_set id
                 (mkEdge id (ecfg_from config) (ecfg_to config)
                         (or_number (ecfg_strength config) 1.0)
                         (or_number (ecfg_phaseShift config) 0)
                         harmonicResonance
                         (or_default (ecfg_bidirectional config) false))
                 (edges g))
        g
  | _, _ => g
  end.

(** *** _generateWave(amplitude, frequency, phase, time, waveform) *)

(** [Math.sign], [Math.floor], and [x % 1]. *)
Definition sign (x : R) : R :=
  if Rlt_dec 0 x then 1 else if Rlt_dec x 0 then -1 else 0.

Definition floor (x : R) : R := IZR (Int_part x).

Definition rem1 (x : R) : R :=
  if Rle_dec 0 x then x - floor x else x + floor (- x).

Definition _generateWave (amplitude frequency phase time : R) (waveform : string) : R :=
  let omega := 2 * PI * frequency in
  let arg := omega * time + phase in
  if String.eqb waveform "sine" then amplitude * sin arg
  else if String.eqb waveform "square" then amplitude * sign (sin arg)
  else if String.eqb waveform "sawtooth" then
    amplitude * (2 * (arg / (2 * PI) - floor (arg / (2 * PI) + 0.5)))
  else if String.eqb waveform "triangle" then
    let t := rem1 (arg / (2 * PI)) in
    amplitude * (if Rlt_dec t 0.5 then 4 * t - 1 else -4 * t + 3)
  else amplitude * sin arg.

(** *** _learnResonancePatterns() *)

Definition edgeBetween (g : Graph) (a b : string) : bool :=
  existsb (fun e => (String.eqb (edge_from e) a && String.eqb (edge_to e) b)
                    || (String.eqb (edge_from e) b && String.eqb (edge_to e) a))
          (map_values (edges g)).

Definition learn_pair (nodeA : Node) (g : Graph) (nodeB : Node) : Graph :=
  let freqRatio := frequency nodeB / frequency nodeA in
  let resonance := _calculateHarmonicResonance freqRatio in
  if Rlt_dec 0.6 resonance then
    if edgeBetween g (node_id nodeA) (node_id nodeB) then g
    else
      set_proposedResonances
        (proposedResonances g ++
         [mkResonance (node_id nodeA) (node_id nodeB) resonance freqRatio
                      (frequency nodeA, frequency nodeB, freqRatio)])
        g
  else g.

Fixpoint learn_pairs (activeNodes : list Node) (g : Graph) : Graph :=
  match activeNodes with
  | [] => g
  | nodeA :: rest => learn_pairs rest (fold_left (learn_pair nodeA) rest g)
  end.

Definition _learnResonancePatterns (g : Graph) : Graph :=
  let activeNodes :=
    filter (fun n => if Rlt_dec 0.3 (amplitude n) then true else false)
           (map_values (nodes g)) in
  learn_pairs activeNodes g.

(** *** _updateWaveField(step) *)

(** The first loop: every node's wave value goes to [fieldState]. *)
Definition wave_values (g : Graph) : list (string * R) :=
  fold_left
    (fun fs kv =>
       let node := snd kv in
       map_set (fst kv)
               (_generateWave (amplitude node) (frequency node) (phase node)
                              (time g) (waveform node))
               fs)
    (nodes g) (fieldState g).

(** The energy a coupling transfers. *)
Definition transferred (g : Graph) (edge : Edge) : R :=
  let sourceValue := or_default (map_get (edge_from edge) (fieldState g)) 0 in
  sourceValue * strength edge * harmonicResonance edge * cos (phaseShift edge).

(** One turn of the second loop. *)
Definition couple (g : Graph) (edge : Edge) : Graph * Completion unit :=
  match map_get (edge_to edge) (nodes g) with
  | None => (g, Normal tt)
  | Some targetNode =>
      let targetNode :=
        set_amplitude targetNode
                      (Rmin 1.0 (amplitude targetNode + Rabs (transferred g edge) * 0.01)) in
      let g := set_nodes (map_set (edge_to edge) targetNode (nodes g)) g in
      match handler targetNode with
      | Some h =>
          if Rlt_dec 0.5 (amplitude targetNode) then
            match map_get (edge_from edge) (nodes g) with
            | None =>
                (g, Throw (TypeError "Cannot read properties of undefined (reading 'frequency')"))
            | Some sourceNode =>
                match h (amplitude targetNode) (frequency sourceNode)
                        (harmonicResonance edge) with
                | HDone => (g, Normal tt)
                | HThrows e => (g, Throw e)
                end
            end
          else (g, Normal tt)
      | None => (g, Normal tt)
      end
  end.

Fixpoint couplings (g : Graph) (es : list Edge) : Graph * Completion unit :=
  match es with
  | [] => (g, Normal tt)
  | edge :: rest =>
      match couple g edge with
      | (g, Normal _) => couplings g rest
      | (g, Throw e) => (g, Throw e)
      end
  end.

Definition _updateWaveField (g : Graph) (step : nat) : Graph * Completion unit :=
  let g := set_time (INR step / sampleRate g) g in
  let g := set_fieldState (wave_values g) g in
  match couplings g (map_values (edges g)) with
  | (g, Throw e) => (g, Throw e)
  | (g, Normal _) =>
      if (step mod 100 =? 0)%nat then (_learnResonancePatterns g, Normal tt)
      else (g, Normal tt)
  end.

(** *** propagate(sourceNodeId, amplitude, duration) *)

(** [node.amplitude = amplitude] on a registered node. *)
Definition excite (g : Graph) (id : string) (a : R) : Graph :=
  match map_get id (nodes g) with
  | Some n => set_nodes (map_set id (set_amplitude n a) (nodes g)) g
  | None => g
  end.

Fixpoint timesteps (g : Graph) (step n : nat) : Graph * Completion unit :=
  match n with
  | O => (g, Normal tt)
  | S n =>
      match _updateWaveField g step with
      | (g, Normal _) => timesteps g (S step) n
      | (g, Throw e) => (g, Throw e)
      end
  end.

Definition propagate (g : Graph) (sourceNodeId : string) (amplitude0 duration : R)
  : Graph * Completion unit :=
  match map_get sourceNodeId (nodes g) with
  | None => (g, Normal tt)
  | Some _ =>
      let g := excite g sourceNodeId amplitude0 in
      let steps := Z.to_nat (Int_part (duration / (1000 / sampleRate g))) in
      match timesteps g 0 steps with
      | (g, Throw e) => (g, Throw e)
      | (g, Normal _) =>
          match map_get sourceNodeId (nodes g) with
          | Some n => (excite g sourceNodeId (amplitude n * 0.95), Normal tt)
          | None => (g, Normal tt)
          end
      end
  end.

Definition amplitude_of (g : Graph) (id : string) : option R :=
  option_map amplitude (map_get id (nodes g)).

(** *** A node coupled to itself *)

Definition gate1 : NodeConfig :=
  mkNodeConfig 1 None None None None None None None None.

Definition selfCoupled : Graph :=
  registerResonanceEdge
    (registerNode empty "A" gate1 0)
    "aa" (mkEdgeConfig "A" "A" (Some 1) None None).


(** *** broadcast(groupName, amplitude, duration)

    [rnd] gives the numbers [Math.random()] returns, one for each node of
    the group.  The result is [None] for the [undefined] of a group with no
    node. *)

Definition groupIds (g : Graph) (groupName : string) : list string :=
  map node_id
      (filter (fun n => existsb (String.eqb groupName) (groups n))
              (map_values (nodes g))).

Fixpoint excite_all (g : Graph) (nodeIds : list string) (a : R) (rnd : nat -> R)
         (i : nat) : Graph * Completion unit :=
  match nodeIds with
  | [] => (g, Normal tt)
  | nodeId :: rest =>
      match map_get nodeId (nodes g) with
      | None =>
          (g, Throw (TypeError "Cannot set properties of undefined (setting 'amplitude')"))
      | Some node =>
          excite_all
            (set_nodes (map_set nodeId
                                (set_phase (set_amplitude node a) (rnd i * PI * 2))
                                (nodes g)) g)
            rest a rnd (S i)
      end
  end.

Definition broadcast (g : Graph) (groupName : string) (a : R) (rnd : nat -> R)
  : Graph * Completion (option (list string)) :=
  let nodeIds := groupIds g groupName in
  match nodeIds with
  | [] => (g, Normal None)
  | _ =>
      match excite_all g nodeIds a rnd 0 with
      | (g, Throw e) => (g, Throw e)
      | (g, Normal _) =>
          match _updateWaveField g 0 with
          | (g, Throw e) => (g, Throw e)
          | (g, Normal _) => (g, Normal (Some nodeIds))
          end
      end
  end.

(** *** getProposedResonances(), approveResonance(index) *)

Definition getProposedResonances (g : Graph) : list Resonance :=
  filter (fun r => if Rlt_dec 0.7 (resonance r) then true else false)
         (proposedResonances g).

Fixpoint splice1 {A : Type} (i : nat) (l : list A) : list A :=
  match l, i with
  | [], _ => []
  | _ :: rest, O => rest
  | x :: rest, S i => x :: splice1 i rest
  end.

Definition approveResonance (g : Graph) (index : nat) (now : Z) : Graph :=
  match nth_error (proposedResonances g) index with
  | None => g
  | Some proposed =>
      let g :=
        registerResonanceEdge
          g ("evolved_resonance_" ++ show_int now)%string
          (mkEdgeConfig (res_from proposed) (res_to proposed)
                        (Some (resonance proposed)) None (Some true)) in
      set_proposedResonances (splice1 index (proposedResonances g)) g
  end.

(** *** analyzeFieldCoherence()

    [coherence] and [avgAmplitude] divide by [this.nodes.size]; they are
    [None] when the graph has no node, where the quotient is no number. *)





(** *** connectHarmonicGates()

    The two loops run over [gates], the nodes as they were when the method
    was called; [i] and [j] are the indices the edge ids are made from. *)

Fixpoint connect_row (g : Graph) (gateI : Node) (i j : nat) (rest : list Node)
  : Graph :=
  match rest with
  | [] => g
  | gateJ :: rest =>
      let freqRatio := frequency gateJ / frequency gateI in
      let resonance := _calculateHarmonicResonance freqRatio in
      let g :=
        if Rlt_dec 0.7 resonance then
          registerResonanceEdge
            g ("harmonic_" ++ show_int (Z.of_nat i) ++ "_" ++ show_int (Z.of_nat j))%string
            (mkEdgeConfig (node_id gateI) (node_id gateJ) (Some resonance) None
                          (Some true))
        else g in
      connect_row g gateI i (S j) rest
  end.

Fixpoint connect_rows (g : Graph) (i : nat) (gates : list Node) : Graph :=
  match gates with
  | [] => g
  | gateI :: rest => connect_rows (connect_row g gateI i (S i) rest) (S i) rest
  end.

Definition connectHarmonicGates (g : Graph) : Graph :=
  connect_rows g 0 (map_values (nodes g)).

(** *** Sequences of calls on one graph *)

Inductive Call : Type :=
| RegisterNode (id : string) (config : NodeConfig) (rnd : R)
| RegisterResonanceEdge (id : string) (config : EdgeConfig)
| Propagate (sourceNodeId : string) (amplitude0 duration : R)
| Broadcast (groupName : string) (amplitude0 : R) (rnd : nat -> R)
| ApproveResonance (index : nat) (now : Z).

Definition call (g : Graph) (c : Call) : Graph :=
  match c with
  | RegisterNode id config rnd => registerNode g id config rnd
  | RegisterResonanceEdge id config => registerResonanceEdge g id config
  | Propagate src a d => fst (propagate g src a d)
  | Broadcast group a rnd => fst (broadcast g group a rnd)
  | ApproveResonance i now => approveResonance g i now
  end.

Definition calls (g : Graph) (cs : list Call) : Graph := fold_left call cs g.

(** Every edge joins two registered nodes, every node is stored under its
    own id, and [fieldState] has the keys of [nodes], in the same order. *)
Definition well_formed (g : Graph) : Prop :=
  map fst (fieldState g) = map fst (nodes g) /\
  Forall (fun kv => node_id (snd kv) = fst kv) (nodes g) /\
  Forall (fun kv => map_has (edge_from (snd kv)) (nodes g) = true /\
                    map_has (edge_to (snd kv)) (nodes g) = true)
         (edges g).

(** [g'] is [g] with some nodes retuned: the same node keys and ids and the
    same handlers in the same order, the same edges and the same keys of
    [fieldState]. *)
Definition retuned (g g' : Graph) : Prop :=
  edges g' = edges g /\
  map fst (fieldState g') = map fst (fieldState g) /\
  Forall2 (fun kv kv' => fst kv' = fst kv /\
                         node_id (snd kv') = node_id (snd kv) /\
                         handler (snd kv') = handler (snd kv))
          (nodes g) (nodes g').

(** A call whose amplitude argument, if it has one, is between 0 and 1. *)
Definition gentle (c : Call) : Prop :=
  match c with
  | Propagate _ a _ => 0 <= a <= 1
  | Broadcast _ a _ => 0 <= a <= 1
  | _ => True
  end.

(** No handler of the graph throws. *)
Definition handlers_return (g : Graph) : Prop :=
  Forall (fun kv => forall h, handler (snd kv) = Some h ->
                              forall a f r, h a f r = HDone)
         (nodes g).

(** Every amplitude is in the interval from 0 to 1. *)
Definition in_range (g : Graph) : Prop :=
  forall id a, amplitude_of g id = Some a -> 0 <= a <= 1.

(** Two oscillators an octave apart or not, and a group of one. *)
Definition gate64 : NodeConfig :=
  mkNodeConfig 64 None None None None None None (Some ["pair"]) None.

(** Three oscillators of one frequency in one group, after a broadcast to
    the group. *)
Definition trio : Graph :=
  calls empty
        [RegisterNode "A" gate64 0; RegisterNode "B" gate64 0;
         RegisterNode "C" gate64 0; Broadcast "pair" 0.5 (fun _ => 0)].

Definition twoNodes : Graph :=
  calls empty
        [RegisterNode "A" gate1 0; RegisterNode "B" gate64 0;
         RegisterResonanceEdge "ab" (mkEdgeConfig "A" "B" (Some 1) None None);
         RegisterResonanceEdge "ba" (mkEdgeConfig "B" "A" (Some 1) None None)].

End Wave.

(** ** ReproductiveCausalGraph *)

Module Reproductive.
Import JS.
Local Open Scope string_scope.
Local Open Scope list_scope.
Local Open Scope Q_scope.

(** A gene is a number; reading a gene that is not there gives
    [undefined], which arithmetic turns into [NaN]. *)
Inductive num : Type :=
| Num (q : Q)
| NaN.

Definition num_lift2 (f : Q -> Q -> Q) (a b : num) : num :=
  match a, b with
  | Num x, Num y => Num (f x y)
  | _, _ => NaN
  end.

Definition num_add := num_lift2 Qplus.
Definition num_sub := num_lift2 Qminus.
Definition num_mul := num_lift2 Qmult.

Definition num_abs (a : num) : num :=
  match a with Num x => Num (Qabs x) | NaN => NaN end.

(** [a < b] and [a > b] are false when either side is [NaN]. *)
Definition num_ltb (a b : num) : bool :=
  match a, b with
  | Num x, Num y => negb (Qle_bool y x)
  | _, _ => false
  end.

(** [Math.max(lo, Math.min(hi, a))] *)
Definition clamp (lo hi : Q) (a : num) : num :=
  match a with Num x => Num (Qmax lo (Qmin hi x)) | NaN => NaN end.

Definition Genes : Type := list (string * num).

(** [genes[name]] *)
Definition gene (genes : Genes) (name : string) : num :=
  match map_get name genes with Some v => v | None => NaN end.

Record BodyGenes := mkBodyGenes {
  body_colorGenes : Genes;
  body_toneGenes : Genes;
  body_type : string;
  body_frequency : num
}.

Record Mutation := mkMutation {
  mut_layer : string;
  mut_gene : string;
  mut_original : num;
  mut_mutated : num;
  mut_strength : Q
}.

(** The id [`dna_${Date.now()}_${Math.random().toString(36).substr(2, 9)}`],
    kept as the time and the random number it is printed from. *)
Definition DnaId : Type := (Z * Q)%type.

Definition same_id (a b : option DnaId) : bool :=
  match a, b with
  | None, None => true
  | Some (t, r), Some (t', r') => Z.eqb t t' && Qeq_bool r r'
  | _, _ => false
  end.

(** [ids.includes(id)] *)
Definition includes (ids : list (option DnaId)) (id : option DnaId) : bool :=
  existsb (same_id id) ids.

(** The nine bodies are there in every DNA the class builds; [id],
    [baseGenes], [colorGenes], [toneGenes] and [mutations] are the
    properties that some DNA objects lack. *)
Record DNA := mkDNA {
  dna_id : option DnaId;
  dna_generation : Z;
  dna_species : string;
  dna_parents : list (option DnaId);
  dna_ancestors : list (option DnaId);
  baseGenes : option Genes;
  colorGenes : option Genes;
  toneGenes : option Genes;
  mind : BodyGenes;
  space : BodyGenes;
  body : BodyGenes;
  ego : BodyGenes;
  individuality : BodyGenes;
  mindBody : BodyGenes;
  mindSpace : BodyGenes;
  bodySpace : BodyGenes;
  fullIntegration : BodyGenes;
  dna_mutations : option (list Mutation)
}.

#[local] Unset Elimination Schemes.
Inductive Organism : Type := mkOrganism {
  graph : Wave.Graph;
  dna : DNA;
  generation : Z;
  species : string;
  parents : list (option DnaId);
  ancestors : list (option DnaId);
  offspring : list Organism;
  birthTime : Z;
  age : Z;
  fitness : Q;
  successfulMatings : Z;
  mutations : list Mutation;
  fertile : bool;
  minMatingAge : Z;
  cooldownPeriod : Z;
  lastMating : Z
}.
#[local] Set Elimination Schemes.

(** *** Math.random()

    The numbers [Math.random()] returns are a stream [rnd]; a computation
    reads it from a position and returns the position it has reached,
    with its value or the error it threw. *)
Definition Rand (A : Type) : Type := (nat -> Q) -> nat -> Completion A * nat.

Definition ret {A} (a : A) : Rand A := fun _ i => (Normal a, i).

Definition bind {A B} (m : Rand A) (k : A -> Rand B) : Rand B :=
  fun rnd i =>
    match m rnd i with
    | (Normal a, j) => k a rnd j
    | (Throw e, j) => (Throw e, j)
    end.

Definition random : Rand Q := fun rnd i => (Normal (rnd i), S i).

Definition throw {A} (e : JSError) : Rand A := fun _ i => (Throw e, i).

Notation "x <- m ;; k" := (bind m (fun x => k))
  (at level 61, m at next level, right associativity).

(** [Object.entries(x)] of [undefined] throws. *)
Definition entries (x : option Genes) : Completion Genes :=
  match x with
  | Some g => Normal g
  | None => Throw (TypeError "Cannot convert undefined or null to object")
  end.

(** [x[name]] where [x] may be [undefined]. *)
Definition read (x : option Genes) (name : string) : Completion num :=
  match x with
  | Some g => Normal (gene g name)
  | None => Throw (TypeError "Cannot read properties of undefined")
  end.

Definition lift {A} (c : Completion A) : Rand A := fun _ i => (c, i).

(** *** _generateBodyGenes(bodyType), _generateDNA() *)

Definition colorNames : list string :=
  ["color1_appetite"; "color2_taste"; "color3_thirst"; "color4_touch";
   "color5_sound"; "color6_light"; "color7_perspective";
   "color8_probability"; "color9_necessity"; "color10_desire";
   "color11_innocence"; "color12_knowledge"; "color13_purpose"].

Definition toneNames : list string :=
  ["tone1_security"; "tone2_harmony"; "tone3_action"; "tone4_meditation";
   "tone5_expression"; "tone6_acceptance"; "tone7_doubt"; "tone8_certainty";
   "tone9_expansion"; "tone10_contraction"; "tone11_spirit"; "tone12_body";
   "tone13_integration"].

(** The genes named [names], each a fresh [Math.random()]. *)
Fixpoint randomGenes (names : list string) (rnd : nat -> Q) (i : nat) : Genes :=
  match names with
  | [] => []
  | name :: rest => (name, Num (rnd i)) :: randomGenes rest rnd (S i)
  end.

(** Reads the 27 numbers from position [i] on. *)
Definition _generateBodyGenes (bodyType : string) (rnd : nat -> Q) (i : nat)
  : BodyGenes :=
  mkBodyGenes (randomGenes colorNames rnd i)
              (randomGenes toneNames rnd (i + 13))
              bodyType
              (Num (200 + rnd (i + 26)%nat * 800)).

(** Reads the 243 numbers from position [i] on.  The object has no [id],
    no [baseGenes], no [colorGenes] or [toneGenes] of its own, and no
    [mutations]. *)
Definition _generateDNA (rnd : nat -> Q) (i : nat) : DNA :=
  mkDNA None 0 "primordial" [] [] None None None
        (_generateBodyGenes "mind" rnd i)
        (_generateBodyGenes "space" rnd (i + 27))
        (_generateBodyGenes "body" rnd (i + 54))
        (_generateBodyGenes "ego" rnd (i + 81))
        (_generateBodyGenes "monopole" rnd (i + 108))
        (_generateBodyGenes "mind_body" rnd (i + 135))
        (_generateBodyGenes "mind_space" rnd (i + 162))
        (_generateBodyGenes "body_space" rnd (i + 189))
        (_generateBodyGenes "unified" rnd (i + 216))
        None.

(** *** constructor(dna = null) *)

Definition construct (d : option DNA) (now : Z) (rnd : nat -> Q) (i : nat)
  : Organism * nat :=
  let '(d, i) :=
    match d with
    | Some d => (d, i)
    | None => (_generateDNA rnd i, (i + 243)%nat)
    end in
  (mkOrganism Wave.empty d (dna_generation d)
              (if String.eqb (dna_species d) "" then "primordial" else dna_species d)
              (dna_parents d) (dna_ancestors d) []
              now 0 0 0 [] true 60000 30000 0,
   i).

(** *** _calculateGeneticDistance(otherGraph) *)

(** One of the three loops: [layer] of this DNA against [layer] of the
    other. *)
Fixpoint distance_loop (mine : Genes) (others : option Genes)
         (totalDiff : num) (count : nat) : Completion (num * nat) :=
  match mine with
  | [] => Normal (totalDiff, count)
  | (geneName, geneValue) :: rest =>
      match read others geneName with
      | Throw e => Throw e
      | Normal otherValue =>
          distance_loop rest others
                        (num_add totalDiff (num_abs (num_sub geneValue otherValue)))
                        (S count)
      end
  end.

Definition distance_layer (mine others : option Genes) (acc : num * nat)
  : Completion (num * nat) :=
  match entries mine with
  | Throw e => Throw e
  | Normal genes => distance_loop genes others (fst acc) (snd acc)
  end.

(** [totalDiff / count]; [count] is 0 only when [totalDiff] is still 0. *)
Definition average (totalDiff : num) (count : nat) : num :=
  match count with
  | O => NaN
  | S _ => num_lift2 Qdiv totalDiff (Num (inject_Z (Z.of_nat count)))
  end.

Definition _calculateGeneticDistance (this other : Organism) : Completion num :=
  match distance_layer (baseGenes (dna this)) (baseGenes (dna other)) (Num 0, O) with
  | Throw e => Throw e
  | Normal acc =>
      match distance_layer (colorGenes (dna this)) (colorGenes (dna other)) acc with
      | Throw e => Throw e
      | Normal acc =>
          match distance_layer (toneGenes (dna this)) (toneGenes (dna other)) acc with
          | Throw e => Throw e
          | Normal acc => Normal (average (fst acc) (snd acc))
          end
      end
  end.

(** *** _calculateHybridVigor(otherGraph) *)

Definition _calculateHybridVigor (this other : Organism) : Completion num :=
  match read (baseGenes (dna this)) "hybridVigor" with
  | Throw e => Throw e
  | Normal mine =>
      match read (baseGenes (dna other)) "hybridVigor" with
      | Throw e => Throw e
      | Normal theirs =>
          let avgHybridGene := num_lift2 Qdiv (num_add mine theirs) (Num 2) in
          match _calculateGeneticDistance this other with
          | Throw e => Throw e
          | Normal geneticDistance =>
              let optimalDistance := Num 0.3 in
              let distanceFactor :=
                num_sub (Num 1) (num_abs (num_sub geneticDistance optimalDistance)) in
              Normal (num_mul avgHybridGene distanceFactor)
          end
      end
  end.

(** *** canMateWith(otherGraph) *)

Record Compatibility := mkCompatibility {
  compatible : bool;
  reason : option string;
  geneticDistance : option num;
  hybridVigor : option num
}.

Definition incompatible (why : string) : Compatibility :=
  mkCompatibility false (Some why) None None.

(** [`${reason}`] *)
Definition or_reason (r : option string) : string :=
  match r with Some s => s | None => "undefined" end.

Definition canMateWith (this other : Organism) (now : Z)
  : Completion Compatibility :=
  if (age this <? minMatingAge this)%Z || (age other <? minMatingAge other)%Z
  then Normal (incompatible "too_young")
  else if (now - lastMating this <? cooldownPeriod this)%Z
  then Normal (incompatible "cooldown")
  else if includes (ancestors this) (dna_id (dna other))
          || includes (ancestors other) (dna_id (dna this))
          || includes (parents this) (dna_id (dna other))
          || includes (parents other) (dna_id (dna this))
  then Normal (incompatible "too_related")
  else
    match _calculateGeneticDistance this other with
    | Throw e => Throw e
    | Normal distance =>
        if num_ltb (Num 0.8) distance
        then Normal (incompatible "too_different")
        else
          match _calculateHybridVigor this other with
          | Throw e => Throw e
          | Normal vigor =>
              Normal (mkCompatibility true None (Some distance) (Some vigor))
          end
    end.

(** *** _crossBodyGenes(bodyA, bodyB) *)

Definition num_half_sum (a b : num) : num :=
  num_lift2 Qdiv (num_add a b) (Num 2).

(** One of the two gene loops. *)
Fixpoint cross_genes (names : Genes) (genesA genesB offspring : Genes)
  : Rand Genes :=
  match names with
  | [] => ret offspring
  | (geneName, _) :: rest =>
      let parentA_gene := gene genesA geneName in
      let parentB_gene := gene genesB geneName in
      r <- random ;;
      v <- (if negb (Qle_bool 0.5 r)
            then r' <- random ;;
                 ret (if negb (Qle_bool 0.5 r') then parentA_gene else parentB_gene)
            else ret (num_half_sum parentA_gene parentB_gene)) ;;
      cross_genes rest genesA genesB (map_set geneName v offspring)
  end.

Definition _crossBodyGenes (bodyA bodyB : BodyGenes) : Rand BodyGenes :=
  colors <- cross_genes (body_colorGenes bodyA) (body_colorGenes bodyA)
                        (body_colorGenes bodyB) [] ;;
  tones <- cross_genes (body_toneGenes bodyA) (body_toneGenes bodyA)
                       (body_toneGenes bodyB) [] ;;
  r <- random ;;
  let frequency :=
    if negb (Qle_bool 0.5 r) then body_frequency bodyA else body_frequency bodyB in
  r' <- random ;;
  let frequency :=
    if negb (Qle_bool 0.3 r')
    then num_half_sum (body_frequency bodyA) (body_frequency bodyB)
    else frequency in
  ret (mkBodyGenes colors tones (body_type bodyA) frequency).

(** *** _determineSpecies(dnaA, dnaB) *)

Definition _determineSpecies (dnaA dnaB : DNA) : string :=
  if String.eqb (dna_species dnaA) (dna_species dnaB) then dna_species dnaA
  else if String.leb (dna_species dnaA) (dna_species dnaB)
  then (dna_species dnaA ++ "_" ++ dna_species dnaB ++ "_hybrid")%string
  else (dna_species dnaB ++ "_" ++ dna_species dnaA ++ "_hybrid")%string.

(** *** _crossoverDNA(dnaA, dnaB)

    The object it builds has an [id] and the nine bodies, and no
    [baseGenes], [colorGenes] or [toneGenes]. *)
Definition _crossoverDNA (dnaA dnaB : DNA) (now : Z) : Rand DNA :=
  r <- random ;;
  mind' <- _crossBodyGenes (mind dnaA) (mind dnaB) ;;
  space' <- _crossBodyGenes (space dnaA) (space dnaB) ;;
  body' <- _crossBodyGenes (body dnaA) (body dnaB) ;;
  ego' <- _crossBodyGenes (ego dnaA) (ego dnaB) ;;
  individuality' <- _crossBodyGenes (individuality dnaA) (individuality dnaB) ;;
  mindBody' <- _crossBodyGenes (mindBody dnaA) (mindBody dnaB) ;;
  mindSpace' <- _crossBodyGenes (mindSpace dnaA) (mindSpace dnaB) ;;
  bodySpace' <- _crossBodyGenes (bodySpace dnaA) (bodySpace dnaB) ;;
  fullIntegration' <- _crossBodyGenes (fullIntegration dnaA) (fullIntegration dnaB) ;;
  ret (mkDNA (Some (now, r))
             (Z.max (dna_generation dnaA) (dna_generation dnaB) + 1)
             (_determineSpecies dnaA dnaB)
             [dna_id dnaA; dna_id dnaB]
             []
             None None None
             mind' space' body' ego' individuality'
             mindBody' mindSpace' bodySpace' fullIntegration'
             None).

(** *** _mutateDNA(dna) *)

(** One of the three gene loops; [genes] is the layer as it is being
    rewritten. *)
Fixpoint mutate_genes (layer : string) (mutationRate : Q) (names genes : Genes)
         (mutations : list Mutation) : Rand (Genes * list Mutation) :=
  match names with
  | [] => ret (genes, mutations)
  | (geneName, geneValue) :: rest =>
      r <- random ;;
      if negb (Qle_bool mutationRate r) then
        r' <- random ;;
        let mutationStrength := (r' - 0.5) * 0.4 in
        let scaled := num_mul geneValue (Num (1 + mutationStrength)) in
        let mutated :=
          if String.eqb layer "base" && String.eqb geneName "baseFrequency"
          then clamp 200 1000 scaled
          else clamp 0 1 scaled in
        mutate_genes layer mutationRate rest (map_set geneName mutated genes)
                     (mutations ++
                      [mkMutation layer geneName geneValue mutated mutationStrength])
      else mutate_genes layer mutationRate rest genes mutations
  end.

Definition with_genes (d : DNA) (base colors tones : option Genes)
           (muts : option (list Mutation)) : DNA :=
  mkDNA (dna_id d) (dna_generation d) (dna_species d) (dna_parents d)
        (dna_ancestors d) base colors tones
        (mind d) (space d) (body d) (ego d) (individuality d)
        (mindBody d) (mindSpace d) (bodySpace d) (fullIntegration d) muts.

Definition _mutateDNA (d : DNA) : Rand DNA :=
  rate <- lift (read (baseGenes d) "mutationRate") ;;
  let mutationRate :=
    match rate with
    | Num q => if Qeq_bool q 0 then 0.15 else q
    | NaN => 0.15
    end in
  base <- lift (entries (baseGenes d)) ;;
  bm <- mutate_genes "base" mutationRate base base [] ;;
  colors <- lift (entries (colorGenes d)) ;;
  cm <- mutate_genes "color" mutationRate colors colors (snd bm) ;;
  tones <- lift (entries (toneGenes d)) ;;
  tm <- mutate_genes "tone" mutationRate tones tones (snd cm) ;;
  ret (with_genes d (Some (fst bm)) (Some (fst cm)) (Some (fst tm)) (Some (snd tm))).

(** *** mateWith(otherGraph) *)

Definition with_family (o : Organism) (ps ancs : list (option DnaId)) : Organism :=
  mkOrganism (graph o) (dna o) (generation o) (species o) ps ancs
             (offspring o) (birthTime o) (age o) (fitness o)
             (successfulMatings o) (mutations o) (fertile o)
             (minMatingAge o) (cooldownPeriod o) (lastMating o).

Definition with_offspring (o : Organism) (baby : Organism) : Organism :=
  mkOrganism (graph o) (dna o) (generation o) (species o) (parents o)
             (ancestors o) (offspring o ++ [baby]) (birthTime o) (age o)
             (fitness o) (successfulMatings o) (mutations o) (fertile o)
             (minMatingAge o) (cooldownPeriod o) (lastMating o).

Definition mated (o : Organism) (now : Z) : Organism :=
  mkOrganism (graph o) (dna o) (generation o) (species o) (parents o)
             (ancestors o) (offspring o) (birthTime o) (age o) (fitness o)
             (successfulMatings o + 1) (mutations o) (fertile o)
             (minMatingAge o) (cooldownPeriod o) now.

(** [[...new Set(ids)]] *)
Definition unique (ids : list (option DnaId)) : list (option DnaId) :=
  fold_left (fun acc id => if includes acc id then acc else acc ++ [id]) ids [].

(** The [for] loop with [n] turns left.  The two parents are returned as
    the loop has left them, also when a turn throws. *)
Fixpoint births (n : nat) (this other : Organism) (now : Z)
         (babies : list Organism) (rnd : nat -> Q) (i : nat)
  : Organism * Organism * Completion (list Organism) * nat :=
  match n with
  | O => (this, other, Normal babies, i)
  | S n =>
      match (babyDNA <- _crossoverDNA (dna this) (dna other) now ;;
             _mutateDNA babyDNA) rnd i with
      | (Throw e, j) => (this, other, Throw e, j)
      | (Normal mutated, j) =>
          let '(baby, j) := construct (Some mutated) now rnd j in
          let baby :=
            with_family baby
                        [dna_id (dna this); dna_id (dna other)]
                        (unique (ancestors this ++ ancestors other
                                 ++ [dna_id (dna this); dna_id (dna other)])) in
          births n (with_offspring this baby) (with_offspring other baby) now
                 (babies ++ [baby]) rnd j
      end
  end.

(** [for (let i = 0; i < offspringCount; i++)] runs no turn when
    [offspringCount] is [NaN]. *)
Definition turns (offspringCount : num) : nat :=
  match offspringCount with
  | Num q => Z.to_nat (Qceiling q)
  | NaN => O
  end.

Definition mateWith (this other : Organism) (now : Z) (rnd : nat -> Q) (i : nat)
  : Organism * Organism * Completion (list Organism) * nat :=
  match canMateWith this other now with
  | Throw e => (this, other, Throw e, i)
  | Normal compatibility =>
      if negb (compatible compatibility) then
        (this, other,
         Throw (mkError "Error"
                        ("Cannot mate: " ++ or_reason (reason compatibility))%string),
         i)
      else
        match read (baseGenes (dna this)) "offspringCount",
              read (baseGenes (dna other)) "offspringCount" with
        | Throw e, _ => (this, other, Throw e, i)
        | _, Throw e => (this, other, Throw e, i)
        | Normal mine, Normal theirs =>
            let avgOffspringGene := num_half_sum mine theirs in
            let offspringCount :=
              match num_add (Num 1) (num_mul avgOffspringGene (Num 3)) with
              | Num q => Num (inject_Z (Qfloor q))
              | NaN => NaN
              end in
            match births (turns offspringCount) this other now [] rnd i with
            | (this, other, Throw e, j) => (this, other, Throw e, j)
            | (this, other, Normal babies, j) =>
                (mated this now, mated other now, Normal babies, j)
            end
        end
  end.

(** *** Two graphs made by [new ReproductiveCausalGraph()] *)

Definition stream (k : nat) : Q := inject_Z (Z.of_nat (k mod 10)) / 10.

(** [this.age = a], as [calculateFitness] assigns it from the clock. *)
Definition aged (o : Organism) (a : Z) : Organism :=
  mkOrganism (graph o) (dna o) (generation o) (species o) (parents o)
             (ancestors o) (offspring o) (birthTime o) a (fitness o)
             (successfulMatings o) (mutations o) (fertile o)
             (minMatingAge o) (cooldownPeriod o) (lastMating o).

(** Born at times 0 and 5, both two minutes old. *)
Definition adam : Organism := aged (fst (construct None 0 stream 0)) 120000.
Definition eve : Organism := aged (fst (construct None 5 stream 243)) 120000.

(** A DNA with the three gene layers, as a caller can pass it to the
    constructor, and two graphs that carry it. *)
Definition founder : DNA :=
  with_genes (_generateDNA stream 0)
             (Some [("mutationRate", Num 0.5); ("baseFrequency", Num 440);
                    ("offspringCount", Num 0.5); ("hybridVigor", Num 0.5)])
             (Some [("color1_appetite", Num 0.9)])
             (Some [("tone1_security", Num 0.1)])
             None.

Definition elder : Organism := aged (fst (construct (Some founder) 0 stream 0)) 120000.
Definition younger : Organism := aged (fst (construct (Some founder) 5 stream 0)) 120000.

End Reproductive.

(** * Strings and maps *)

Module JSFacts.
Import JS.
Local Open Scope string_scope.
Local Open Scope list_scope.


Lemma length_append (a b : string) :
  String.length (a ++ b)%string = (String.length a + String.length b)%nat.
Proof. induction a as [|c a IH]; simpl; [reflexivity | now rewrite IH]. Qed.

Lemma append_inv_tail (s a b : string) : (a ++ s = b ++ s)%string -> a = b.
Proof.
  revert b. induction a as [|c a IH]; intros [|d b] H; simpl in H.
  - reflexivity.
  - apply (f_equal String.length) in H. simpl in H.
    rewrite length_append in H. lia.
  - apply (f_equal String.length) in H. simpl in H.
    rewrite length_append in H. lia.
  - injection H as Hc H. subst d. f_equal. now apply IH.
Qed.

Section Maps.
Context {V W : Type}.
Implicit Types (m : list (string * V)) (k : string).

Lemma map_get_set_eq k (v : V) m : map_get k (map_set k v m) = Some v.
Proof.
  induction m as [|[k' v'] m IH]; simpl.
  - now rewrite String.eqb_refl.
  - destruct (String.eqb_spec k' k) as [->|Hne]; simpl.
    + now rewrite String.eqb_refl.
    + destruct (String.eqb_spec k' k); [contradiction | exact IH].
Qed.

Lemma map_get_set_neq k k' (v : V) m :
  k <> k' -> map_get k' (map_set k v m) = map_get k' m.
Proof.
  intros Hne. induction m as [|[k0 v0] m IH]; simpl.
  - destruct (String.eqb_spec k k'); [contradiction | reflexivity].
  - destruct (String.eqb_spec k0 k) as [->|H0]; simpl.
    + destruct (String.eqb_spec k k'); [contradiction | reflexivity].
    + destruct (String.eqb_spec k0 k'); [reflexivity | exact IH].
Qed.


Lemma map_set_on_values (f : V -> W) k v m :
  on_values f (map_set k v m) = map_set k (f v) (on_values f m).
Proof.
  induction m as [|[k' v'] m IH]; simpl; [reflexivity|].
  destruct (String.eqb k' k); simpl; [reflexivity | now rewrite IH].
Qed.
End Maps.

End JSFacts.

(** * Properties of CausalGraphSubstrate *)

Module SubstrateFacts.
Import JS JSFacts Substrate.
Local Open Scope string_scope.
Local Open Scope list_scope.
Local Open Scope Q_scope.

(** ** The cycle guard *)

Lemma visitKey_inj (pid a b : string) : visitKey a pid = visitKey b pid -> a = b.
Proof. unfold visitKey. apply append_inv_tail. Qed.


(** The guard's keys all carry the id of the run, so looking a key up is
    looking the node id up. *)
Lemma visited_key (pid to : string) (seen : list string) :
  existsb (String.eqb (visitKey to pid)) (keys pid seen)
  = existsb (String.eqb to) seen.
Proof.
  unfold keys. induction seen as [|x seen IH]; simpl; [reflexivity|].
  rewrite IH. f_equal.
  destruct (String.eqb_spec to x) as [->|Hne].
  - apply String.eqb_refl.
  - apply String.eqb_neq. intros H. apply Hne. now apply visitKey_inj in H.
Qed.

Lemma existsb_eqb_In (x : string) (l : list string) :
  existsb (String.eqb x) l = true <-> In x l.
Proof.
  rewrite existsb_exists. split.
  - intros [y [Hy He]]. apply String.eqb_eq in He. now subst.
  - intros H. exists x. split; [exact H | apply String.eqb_refl].
Qed.

(** ** _activateNode *)

Lemma run_handlers_activation hs signal metadata n acc :
  activation (fst (run_handlers hs signal metadata n acc)) = activation n.
Proof.
  revert n acc. induction hs as [|[name h] hs IH]; intros n acc; simpl.
  - reflexivity.
  - destruct (h signal metadata (view n)); rewrite IH; reflexivity.
Qed.

Lemma _activateNode_spec s nodeId signal metadata now :
  match map_get nodeId (nodes s) with
  | None => _activateNode s nodeId signal metadata now = (s, None)
  | Some n =>
      exists s' r,
      _activateNode s nodeId signal metadata now = (s', Some r) /\
      res_nodeId r = nodeId /\
      res_activation r = Qmin 1 (activation n + signal) /\
      activations s' = map_set nodeId (Qmin 1 (activation n + signal)) (activations s) /\
      edges s' = edges s /\ timers s' = timers s /\
      observedPatterns s' = observedPatterns s /\
      proposedEdges s' = proposedEdges s
  end.
Proof.
  unfold _activateNode. destruct (map_get nodeId (nodes s)) as [n|]; [|reflexivity].
  cbn [handlers].
  match goal with
  | |- context [run_handlers ?hs ?sg ?md ?n0 ?acc] =>
      pose proof (run_handlers_activation hs sg md n0 acc) as Ha;
      destruct (run_handlers hs sg md n0 acc) as [n' hr]
  end.
  simpl in Ha. eexists. eexists. split; [reflexivity|].
  simpl. rewrite Ha. repeat split; try reflexivity.
  unfold activations. simpl.
  rewrite map_set_on_values. now rewrite Ha.
Qed.


(** ** The queue loop *)

Lemma keys_snoc pid seen to :
  keys pid seen ++ [visitKey to pid] = keys pid (seen ++ [to]).
Proof. unfold keys. now rewrite map_app. Qed.


(** A run activates no node twice: the ids in its results are distinct,
    and none of them was visited before. *)
Lemma drain_ids pid now queue :
  forall seen s,
    NoDup (result_ids (snd (drain pid now queue (keys pid seen) s))) /\
    forall x, In x (result_ids (snd (drain pid now queue (keys pid seen) s))) ->
              ~ In x seen.
Proof.
  induction queue as [|msg rest IH]; intros seen s.
  - simpl. split; [constructor | intros x []].
  - cbn [drain]. rewrite visited_key.
    destruct (existsb (String.eqb (msg_to msg)) seen) eqn:Eseen.
    + apply IH.
    + assert (Hnew : ~ In (msg_to msg) seen).
      { rewrite <- existsb_eqb_In. now rewrite Eseen. }
      pose proof (_activateNode_spec (set_messageQueue rest s) (msg_to msg)
                    (msg_signal msg) (msg_metadata msg) now) as A.
      destruct (map_get (msg_to msg) (nodes (set_messageQueue rest s))) as [n|].
      * destruct A as (t & r & E & I & _). rewrite E, keys_snoc.
        match goal with
        | |- context [drain pid now rest _ ?u] =>
            destruct (IH (seen ++ [msg_to msg]) u) as [IHn IHd];
            destruct (drain pid now rest (keys pid (seen ++ [msg_to msg])) u)
              as [u' rs]
        end.
        cbn [fst snd] in *. cbn [result_ids flat_map app]. rewrite I.
        fold (result_ids rs). split.
        -- constructor; [|exact IHn]. intros Hin. apply (IHd _ Hin).
           apply in_or_app. right. now left.
        -- intros x [<-|Hin]; [exact Hnew|].
           intros Hs. apply (IHd _ Hin). apply in_or_app. now left.
      * rewrite A, keys_snoc.
        match goal with
        | |- context [drain pid now rest _ ?u] =>
            destruct (IH (seen ++ [msg_to msg]) u) as [IHn IHd];
            destruct (drain pid now rest (keys pid (seen ++ [msg_to msg])) u)
              as [u' rs]
        end.
        cbn [fst snd] in *. cbn [result_ids flat_map app].
        fold (result_ids rs). split; [exact IHn|].
        intros x Hin Hs. apply (IHd _ Hin). apply in_or_app. now left.
Qed.

(** The loop writes to nodes, queue and timers, not to the observer. *)
Lemma drain_observer pid now queue :
  forall visited s,
    observedPatterns (fst (drain pid now queue visited s)) = observedPatterns s /\
    proposedEdges (fst (drain pid now queue visited s)) = proposedEdges s /\
    edges (fst (drain pid now queue visited s)) = edges s.
Proof.
  induction queue as [|msg rest IH]; intros visited s.
  - repeat split; reflexivity.
  - cbn [drain]. destruct (existsb _ visited).
    + destruct (IH visited (set_messageQueue rest s)) as (H1 & H2 & H3).
      rewrite H1, H2, H3. repeat split; reflexivity.
    + pose proof (_activateNode_spec (set_messageQueue rest s) (msg_to msg)
                    (msg_signal msg) (msg_metadata msg) now) as A.
      destruct (map_get (msg_to msg) (nodes (set_messageQueue rest s))) as [n|].
      * destruct A as (t & r & E & _ & _ & _ & He & _ & Hp & Hq). rewrite E.
        match goal with
        | |- context [drain pid now rest ?v ?u] =>
            destruct (IH v u) as (H1 & H2 & H3);
            destruct (drain pid now rest v u) as [u' rs]
        end.
        cbn [fst snd] in *. rewrite H1, H2, H3. cbn. rewrite Hp, Hq, He.
        repeat split; reflexivity.
      * rewrite A.
        match goal with
        | |- context [drain pid now rest ?v ?u] =>
            destruct (IH v u) as (H1 & H2 & H3);
            destruct (drain pid now rest v u) as [u' rs]
        end.
        cbn [fst snd] in *. rewrite H1, H2, H3. repeat split; reflexivity.
Qed.

Lemma propagate_fst s src signal metadata now rnd :
  fst (propagate s src signal metadata now rnd)
  = let pid := propagationId now rnd in
    let queue :=
      messageQueue s ++ [mkMessage pid None src signal metadata now [src]] in
    _learnPattern (fst (drain pid now queue [] (set_messageQueue queue s)))
                  src
                  (snd (drain pid now queue [] (set_messageQueue queue s))).
Proof.
  unfold propagate. cbv zeta.
  destruct (drain _ now _ [] _) as [u rs].
  destruct (all_results rs); reflexivity.
Qed.

(** ** _learnPattern *)

Lemma learn_one_nodes src s r : nodes (learn_one src s r) = nodes s.
Proof.
  unfold learn_one. destruct r as [r|]; [|reflexivity]. cbv zeta.
  repeat match goal with
         | |- context [if ?b then _ else _] => destruct b
         end; reflexivity.
Qed.

Lemma _learnPattern_nodes s src rs : nodes (_learnPattern s src rs) = nodes s.
Proof.
  unfold _learnPattern. revert s.
  induction rs as [|r rs IH]; intros s; simpl; [reflexivity|].
  rewrite IH. apply learn_one_nodes.
Qed.















Lemma all_results_ids rs l :
  all_results rs = Some l -> map res_nodeId l = result_ids rs.
Proof.
  revert l. induction rs as [|[r|] rs IH]; intros l H; simpl in H.
  - now injection H as <-.
  - destruct (all_results rs) as [l'|]; [|discriminate H].
    injection H as <-. cbn [map result_ids flat_map app]. f_equal. now apply IH.
  - discriminate H.
Qed.

(** X2.  Whatever the graph and the messages queued, a call of [propagate]
    that returns has activated no node twice. *)
Lemma propagate_activates_no_node_twice s src signal metadata now rnd r :
  snd (propagate s src signal metadata now rnd) = Normal r ->
  NoDup (activatedNodes r).
Proof.
  unfold propagate. cbv zeta.
  set (pid := propagationId now rnd). set (q := messageQueue s ++ [_]).
  destruct (drain_ids pid now q [] (set_messageQueue q s)) as [Hnd _].
  change (keys pid []) with (@nil string) in Hnd.
  destruct (drain pid now q [] _) as [u rs]. cbn [snd] in Hnd.
  destruct (all_results rs) as [l|] eqn:E; cbn [snd]; [|discriminate].
  intros [= <-]. cbn [activatedNodes]. now rewrite (all_results_ids rs l E).
Qed.

(** ** The cap at 1

    The half of the activation bound that the code keeps: whatever the
    calls and their arguments, no activation exceeds 1. *)















(** C7, as the code has it.  [propagate] does not look its source up
    before the run and raises no NodeNotFoundError.  For a source that is
    not registered, [_activateNode] returns [null] and leaves the object as
    it is; with no message queued before the call, no node changes. *)
Theorem propagate_unregistered_source
        (s : Substrate) (sourceNodeId : string) (signal : Q) (metadata : Obj)
        (now : Z) (rnd : string) :
  map_get sourceNodeId (nodes s) = None ->
  _activateNode s sourceNodeId signal metadata now = (s, None) /\
  ~ threw (snd (propagate s sourceNodeId signal metadata now rnd))
          "NodeNotFoundError" /\
  (messageQueue s = [] ->
   nodes (fst (propagate s sourceNodeId signal metadata now rnd)) = nodes s).
Proof.
  intros Hnone. split; [|split].
  - unfold _activateNode. now rewrite Hnone.
  - unfold propagate. cbv zeta.
    destruct (drain _ now _ [] _) as [u rs].
    destruct (all_results rs); cbn [snd]; intros [m H]; discriminate H.
  - intros Hq. rewrite propagate_fst. cbv zeta. rewrite _learnPattern_nodes.
    rewrite Hq. cbn [app drain existsb msg_to msg_signal msg_metadata].
    unfold _activateNode. cbn [nodes set_messageQueue]. rewrite Hnone.
    reflexivity.
Qed.

Lemma propagate_unregistered_source_witness :
  _activateNode chain "Z" 1 [] 5 = (chain, None) /\
  ~ threw (snd (propagate chain "Z" 1 [] 5 "0.5")) "NodeNotFoundError" /\
  nodes (fst (propagate chain "Z" 1 [] 5 "0.5")) = nodes chain.
Proof.
  destruct (propagate_unregistered_source chain "Z" 1 [] 5 "0.5" eq_refl)
    as (H1 & H2 & H3).
  split; [exact H1|]. split; [exact H2|]. apply H3. reflexivity.
Defined.

(** C7, as the spec has it, fails.  On an object with no node,
    [propagate('X', 1.0, {})] does not fail with NodeNotFoundError. *)
Lemma propagate_unknown_is_not_NodeNotFound :
  ~ threw (snd (propagate empty "X" 1 [] 0 "0.5")) "NodeNotFoundError".
Proof. cbn. intros [m H]. discriminate H. Qed.

(** C1.  On the chain A -0.8-> B -0.5-> C, one call [propagate('A', 1.0, {})]
    activates A alone: when it returns, A is at 1 and B and C are still at
    0, the visitation order is [A], and the message for B waits in a
    timer.  The scenario of the spec expects B at 0.8, C at 0.4 and the
    order [A, B, C]. *)
Theorem propagate_chain_visits_source_only (now : Z) (rnd : string) :
  let '(s, c) := propagate chain "A" 1 [] now rnd in
  (exists r, c = Normal r /\ activatedNodes r = ["A"]) /\
  (exists a b c',
      activation_of s "A" = Some a /\
      activation_of s "B" = Some b /\
      activation_of s "C" = Some c' /\
      a == 1 /\ b == 0 /\ c' == 0 /\ ~ b == 0.8 /\ ~ c' == 0.4) /\
  messageQueue s = [] /\
  map (fun t => (msg_to (snd t), msg_signal (snd t))) (timers s) = [("B", 0.8)].
Proof.
  cbn. split; [|split; [|split; reflexivity]].
  - eexists. split; reflexivity.
  - exists 1, 0, 0. repeat split; try reflexivity; intros H; discriminate H.
Qed.

(** C2.  On the cycle A -1-> B -1-> A, one call [propagate('A', 1.0, {})]
    returns having visited A once and B not at all: B keeps activation 0
    and its message is left in a timer.  The scenario of the spec expects
    B to be visited exactly once in this run. *)
Theorem propagate_cycle_never_visits_B (now : Z) (rnd : string) :
  let '(s, c) := propagate cycle "A" 1 [] now rnd in
  (exists r, c = Normal r /\ activatedNodes r = ["A"] /\
             count_occ string_dec (activatedNodes r) "B" = 0%nat) /\
  activation_of s "B" = Some 0 /\
  map (fun t => msg_to (snd t)) (timers s) = ["B"].
Proof.
  cbn. repeat split; try reflexivity.
  eexists. repeat split; reflexivity.
Qed.

(** C3.  [registerNode('A', {})] followed by [propagate('A', -1, {})]
    leaves A with activation -1, below the interval [0, 1]:
    [_activateNode] caps the sum at 1 and has no lower cap. *)
Theorem negative_signal_breaks_activation_bound (now : Z) (rnd : string) :
  let s := calls empty [RegisterNode "A" plain; Propagate "A" (-1) [] now rnd] in
  exists a, activation_of s "A" = Some a /\ a == -1 /\ a < 0.
Proof.
  cbn. eexists. split; [reflexivity|]. split; reflexivity.
Qed.

End SubstrateFacts.

(** * Properties of WaveResonanceCausalGraph *)

Module WaveFacts.
Import JS JSFacts Wave.
Local Open Scope string_scope.
Local Open Scope list_scope.
Local Open Scope R_scope.

Lemma amplitude_of_set g id id' n :
  amplitude_of (set_nodes (map_set id n (nodes g)) g) id'
  = if string_dec id id' then Some (amplitude n) else amplitude_of g id'.
Proof.
  unfold amplitude_of. cbn [nodes set_nodes].
  destruct (string_dec id id') as [<-|Hne].
  - now rewrite map_get_set_eq.
  - now rewrite map_get_set_neq.
Qed.

(** The nodes after one turn of the coupling loop. *)
Lemma couple_nodes g edge :
  nodes (fst (couple g edge))
  = match map_get (edge_to edge) (nodes g) with
    | None => nodes g
    | Some targetNode =>
        map_set (edge_to edge)
                (set_amplitude targetNode
                   (Rmin 1.0 (amplitude targetNode + Rabs (transferred g edge) * 0.01)))
                (nodes g)
    end.
Proof.
  unfold couple. destruct (map_get (edge_to edge) (nodes g)) as [t|]; [|reflexivity].
  cbv zeta. cbn [handler set_amplitude].
  destruct (handler t) as [h|]; [|reflexivity].
  destruct (Rlt_dec _ _); [|reflexivity].
  destruct (map_get (edge_from edge) _); [|reflexivity].
  destruct (h _ _ _); reflexivity.
Qed.

(** One coupling moves an amplitude that is at most 1 upwards, by no more
    than a hundredth of the transferred magnitude, and not above 1; it
    adds no node and removes none. *)
Lemma couple_amplitude g edge id :
  match amplitude_of g id with
  | Some a =>
      exists a', amplitude_of (fst (couple g edge)) id = Some a' /\
                 (a <= 1 -> a <= a' <= 1 /\
                            a' <= a + Rabs (transferred g edge) * 0.01)
  | None => amplitude_of (fst (couple g edge)) id = None
  end.
Proof.
  pose proof (Rabs_pos (transferred g edge)) as Hpos.
  unfold amplitude_of. rewrite couple_nodes.
  destruct (map_get (edge_to edge) (nodes g)) as [t|] eqn:Et.
  - destruct (string_dec (edge_to edge) id) as [<-|Hne].
    + rewrite Et, map_get_set_eq. cbn [option_map amplitude set_amplitude].
      eexists. split; [reflexivity|]. intros Ha.
      pose proof (Rmin_l 1.0 (amplitude t + Rabs (transferred g edge) * 0.01)).
      pose proof (Rmin_r 1.0 (amplitude t + Rabs (transferred g edge) * 0.01)).
      repeat split; try lra.
      apply Rmin_case; lra.
    + rewrite map_get_set_neq by exact Hne.
      destruct (map_get id (nodes g)) as [n|]; cbn [option_map]; [|reflexivity].
      eexists. split; [reflexivity|]. intros Ha. lra.
  - destruct (map_get id (nodes g)) as [n|]; cbn [option_map]; [|reflexivity].
    eexists. split; [reflexivity|]. intros Ha. lra.
Qed.

Lemma couplings_amplitude es id :
  forall g,
    match amplitude_of g id with
    | Some a =>
        exists a', amplitude_of (fst (couplings g es)) id = Some a' /\
                   (a <= 1 -> a <= a' <= 1)
    | None => amplitude_of (fst (couplings g es)) id = None
    end.
Proof.
  induction es as [|edge rest IH]; intros g; cbn [couplings].
  - cbn [fst]. destruct (amplitude_of g id) as [a|]; [|reflexivity].
    exists a. split; [reflexivity | lra].
  - pose proof (couple_amplitude g edge id) as Hc.
    destruct (couple g edge) as [g1 [u|e]]; cbn [fst] in Hc.
    + specialize (IH g1).
      destruct (amplitude_of g id) as [a|].
      * destruct Hc as (a1 & E1 & H1). rewrite E1 in IH.
        destruct IH as (a2 & E2 & H2). exists a2. split; [exact E2|].
        intros Ha. destruct (H1 Ha) as [[? ?] _]. specialize (H2 ltac:(lra)). lra.
      * now rewrite Hc in IH.
    + cbn [fst]. destruct (amplitude_of g id) as [a|]; [|exact Hc].
      destruct Hc as (a1 & E1 & H1). exists a1. split; [exact E1|].
      intros Ha. now destruct (H1 Ha).
Qed.

Lemma learn_pair_nodes a g b : nodes (learn_pair a g b) = nodes g.
Proof.
  unfold learn_pair. cbv zeta.
  destruct (Rlt_dec _ _); [|reflexivity].
  destruct (edgeBetween _ _ _); reflexivity.
Qed.

Lemma learn_row_nodes a bs : forall g, nodes (fold_left (learn_pair a) bs g) = nodes g.
Proof.
  induction bs as [|b bs IH]; intros g; cbn [fold_left]; [reflexivity|].
  rewrite IH. apply learn_pair_nodes.
Qed.

Lemma learn_pairs_nodes active : forall g, nodes (learn_pairs active g) = nodes g.
Proof.
  induction active as [|a rest IH]; intros g; cbn [learn_pairs]; [reflexivity|].
  rewrite IH. apply learn_row_nodes.
Qed.

(** The amplitudes after a timestep are those after its coupling loop. *)
Lemma _updateWaveField_nodes g step :
  nodes (fst (_updateWaveField g step))
  = let g := set_time (INR step / sampleRate g) g in
    let g := set_fieldState (wave_values g) g in
    nodes (fst (couplings g (map_values (edges g)))).
Proof.
  unfold _updateWaveField. cbv zeta.
  destruct (couplings _ _) as [g1 [u|e]]; [|reflexivity].
  destruct (step mod 100 =? 0)%nat; [|reflexivity].
  cbn [fst]. unfold _learnResonancePatterns. apply learn_pairs_nodes.
Qed.

Lemma _updateWaveField_amplitude g step id :
  match amplitude_of g id with
  | Some a =>
      exists a', amplitude_of (fst (_updateWaveField g step)) id = Some a' /\
                 (a <= 1 -> a <= a' <= 1)
  | None => amplitude_of (fst (_updateWaveField g step)) id = None
  end.
Proof.
  unfold amplitude_of at 2 3. rewrite _updateWaveField_nodes. cbv zeta.
  exact (couplings_amplitude _ id
           (set_fieldState (wave_values (set_time (INR step / sampleRate g) g))
                           (set_time (INR step / sampleRate g) g))).
Qed.





End WaveFacts.

(** * Properties of ReproductiveCausalGraph *)

Module ReproductiveFacts.
Import JS Reproductive.
Local Open Scope string_scope.
Local Open Scope list_scope.

Lemma no_baseGenes_no_distance (a b : Organism) :
  baseGenes (dna a) = None ->
  _calculateGeneticDistance a b
  = Throw (TypeError "Cannot convert undefined or null to object").
Proof.
  intros H. unfold _calculateGeneticDistance, distance_layer. now rewrite H.
Qed.

(** Without [baseGenes], [canMateWith] returns a refusal or throws. *)
Lemma no_baseGenes_not_compatible (a b : Organism) (now : Z) :
  baseGenes (dna a) = None ->
  match canMateWith a b now with
  | Normal c => compatible c = false
  | Throw e => err_name e = "TypeError"
  end.
Proof.
  intros H. unfold canMateWith. rewrite (no_baseGenes_no_distance a b H).
  repeat match goal with
         | |- context [if ?c then _ else _] => destruct c
         end; reflexivity.
Qed.

(** C9.  The DNA that [_generateDNA] builds has no [baseGenes].  For two
    graphs that carry such DNA, with the empty [parents] and [ancestors]
    the constructor gives them, [canMateWith] throws a TypeError once the
    age and cooldown checks are passed, and [mateWith] never returns
    offspring: at any ages and times it throws and leaves both graphs as
    they were. *)
Theorem default_dna_never_mates
        (a b : Organism) (now : Z) (rndA rndB : nat -> Q) (iA iB : nat) :
  dna a = _generateDNA rndA iA -> dna b = _generateDNA rndB iB ->
  parents a = [] -> ancestors a = [] -> parents b = [] -> ancestors b = [] ->
  baseGenes (dna a) = None /\
  ((minMatingAge a <= age a)%Z -> (minMatingAge b <= age b)%Z ->
   (cooldownPeriod a <= now - lastMating a)%Z ->
   threw (canMateWith a b now) "TypeError") /\
  (forall rnd i,
      let '(a', b', c, _) := mateWith a b now rnd i in
      a' = a /\ b' = b /\ exists e, c = Throw e).
Proof.
  intros Ha Hb Hpa Haa Hpb Hab.
  assert (Hbase : baseGenes (dna a) = None) by (rewrite Ha; reflexivity).
  split; [exact Hbase|]. split.
  - intros Hage1 Hage2 Hcool. unfold canMateWith.
    apply Z.ltb_ge in Hage1, Hage2, Hcool. rewrite Hage1, Hage2, Hcool.
    rewrite Hpa, Haa, Hpb, Hab. cbn [orb includes existsb].
    rewrite (no_baseGenes_no_distance a b Hbase).
    eexists. reflexivity.
  - intros rnd i. unfold mateWith.
    pose proof (no_baseGenes_not_compatible a b now Hbase) as H.
    destruct (canMateWith a b now) as [c|e].
    + rewrite H. cbn [negb]. repeat split. eexists. reflexivity.
    + repeat split. eexists. reflexivity.
Qed.

Lemma default_dna_never_mates_witness :
  threw (canMateWith adam eve 130000) "TypeError" /\
  (let '(a', b', c, _) := mateWith adam eve 130000 stream 486 in
   a' = adam /\ b' = eve /\ exists e, c = Throw e).
Proof.
  destruct (default_dna_never_mates adam eve 130000 stream stream 0 243
              eq_refl eq_refl eq_refl eq_refl eq_refl eq_refl)
    as (_ & H1 & H2).
  split.
  - apply H1; cbn; lia.
  - apply (H2 stream 486%nat).
Defined.

End ReproductiveFacts.

(** * Edge registration in the two classes *)

Module RegistrationFacts.
Import JS JSFacts.
Local Open Scope string_scope.
Local Open Scope list_scope.

(** C6, as the code has it.  [registerCausalEdge(id, config)] checks
    neither the endpoints nor the weight: it returns normally, leaves the
    nodes alone and stores the edge, with [config.strength || 1.0] as its
    strength.  [registerResonanceEdge(id, config)] throws nothing either:
    with an endpoint that is not registered it returns and leaves the
    graph as it is, and with both registered it stores the edge with
    [config.strength || 1.0] as its strength, whatever the number. *)
Theorem edge_registration_throws_nothing :
  (forall (s : Substrate.Substrate) (id : string) (config : Substrate.EdgeConfig),
      let '(s', c) := Substrate.registerCausalEdge s id (Some config) in
      c = Normal tt /\
      Substrate.nodes s' = Substrate.nodes s /\
      exists e,
        map_get id (Substrate.edges s') = Some e /\
        Substrate.edge_from e = Substrate.ecfg_from config /\
        Substrate.edge_to e = Substrate.ecfg_to config /\
        Substrate.strength e
        = Substrate.or_number (Substrate.ecfg_strength config) 1%Q) /\
  (forall (g : Wave.Graph) (id : string) (config : Wave.EdgeConfig),
      (map_has (Wave.ecfg_from config) (Wave.nodes g) = false \/
       map_has (Wave.ecfg_to config) (Wave.nodes g) = false ->
       Wave.registerResonanceEdge g id config = g) /\
      (map_has (Wave.ecfg_from config) (Wave.nodes g) = true ->
       map_has (Wave.ecfg_to config) (Wave.nodes g) = true ->
       exists e,
         map_get id (Wave.edges (Wave.registerResonanceEdge g id config)) = Some e /\
         Wave.strength e = Wave.or_number (Wave.ecfg_strength config) 1.0%R)).
Proof.
  split.
  - intros s id config. cbn. split; [reflexivity|]. split; [reflexivity|].
    eexists. split; [apply map_get_set_eq|]. repeat split; reflexivity.
  - intros g id config. unfold Wave.registerResonanceEdge, map_has. split.
    + intros [H|H];
        destruct (map_get (Wave.ecfg_from config) (Wave.nodes g));
        destruct (map_get (Wave.ecfg_to config) (Wave.nodes g));
        try discriminate H; reflexivity.
    + intros H1 H2.
      destruct (map_get (Wave.ecfg_from config) (Wave.nodes g)); [|discriminate H1].
      destruct (map_get (Wave.ecfg_to config) (Wave.nodes g)); [|discriminate H2].
      eexists. cbn [Wave.edges Wave.set_edges]. split; [apply map_get_set_eq|].
      reflexivity.
Qed.

Lemma edge_registration_throws_nothing_witness :
  Wave.registerResonanceEdge Wave.empty "ab" (Wave.mkEdgeConfig "A" "B" (Some 1%R) None None)
  = Wave.empty /\
  exists e,
    map_get "aa" (Wave.edges
                    (Wave.registerResonanceEdge
                       (Wave.registerNode Wave.empty "A" Wave.gate1 0%R) "aa"
                       (Wave.mkEdgeConfig "A" "A" (Some 7%R) None None))) = Some e /\
    Wave.strength e = Wave.or_number (Some 7%R) 1.0%R.
Proof.
  split.
  - apply (proj2 edge_registration_throws_nothing Wave.empty "ab").
    left. reflexivity.
  - apply (proj2 edge_registration_throws_nothing
                 (Wave.registerNode Wave.empty "A" Wave.gate1 0%R) "aa"
                 (Wave.mkEdgeConfig "A" "A" (Some 7%R) None None));
      reflexivity.
Defined.

(** C6, as the spec has it, fails.  On an object with no node,
    [registerCausalEdge('e', { from: 'X', to: 'Y', strength: 7 })] throws
    neither UnknownNodeError nor InvalidWeightError and adds the edge. *)
Lemma registerCausalEdge_accepts_anything :
  let r := Substrate.registerCausalEdge Substrate.empty "e" (Substrate.link "X" "Y" 7) in
  map_has "X" (Substrate.nodes Substrate.empty) = false /\
  map_has "Y" (Substrate.nodes Substrate.empty) = false /\
  ~ (7 <= 1)%Q /\
  ~ threw (snd r) "UnknownNodeError" /\
  ~ threw (snd r) "InvalidWeightError" /\
  map_has "e" (Substrate.edges (fst r)) = true.
Proof.
  cbn. repeat split; try reflexivity.
  - intros H. apply Qle_bool_iff in H. discriminate H.
  - intros [m H]. discriminate H.
  - intros [m H]. discriminate H.
Qed.

End RegistrationFacts.


(** * More of CausalGraphSubstrate *)

Module SubstrateCoverage.
Import JS JSFacts Substrate SubstrateFacts.
Local Open Scope string_scope.
Local Open Scope list_scope.
Local Open Scope Q_scope.


Lemma propagate_activates_no_node_twice_witness :
  NoDup ["B"; "A"].
Proof.
  apply (propagate_activates_no_node_twice
           chain_after_one_run "A" 1 [] 5 "0.5"
           (mkPropagationResult
              (propagationId 5 "0.5") ["B"; "A"]
              [mkResult "B" (Qmin 1 (0 + 1 * 0.8)) [] 5;
               mkResult "A" (Qmin 1 (Qmin 1 (0 + 1) + 1)) [] 5])).
  reflexivity.
Defined.

(** ** The order of visits *)








(** ** What a run leaves alone *)

Lemma learn_one_frame src s r :
  nodes (learn_one src s r) = nodes s /\
  edges (learn_one src s r) = edges s /\
  messageQueue (learn_one src s r) = messageQueue s /\
  timers (learn_one src s r) = timers s /\
  nodeGroups (learn_one src s r) = nodeGroups s.
Proof.
  unfold learn_one. destruct r as [r|]; [|now repeat split]. cbv zeta.
  repeat match goal with
         | |- context [if ?b then _ else _] => destruct b
         end; now repeat split.
Qed.

Lemma _learnPattern_frame src rs :
  forall s,
    nodes (_learnPattern s src rs) = nodes s /\
    edges (_learnPattern s src rs) = edges s /\
    messageQueue (_learnPattern s src rs) = messageQueue s /\
    timers (_learnPattern s src rs) = timers s /\
    nodeGroups (_learnPattern s src rs) = nodeGroups s.
Proof.
  unfold _learnPattern. induction rs as [|r rs IH]; intros s; cbn [fold_left].
  - now repeat split.
  - destruct (IH (learn_one src s r)) as (H1 & H2 & H3 & H4 & H5).
    destruct (learn_one_frame src s r) as (G1 & G2 & G3 & G4 & G5).
    rewrite H1, H2, H3, H4, H5. now repeat split.
Qed.

Lemma _activateNode_frame s nodeId signal metadata now :
  messageQueue (fst (_activateNode s nodeId signal metadata now)) = messageQueue s /\
  nodeGroups (fst (_activateNode s nodeId signal metadata now)) = nodeGroups s /\
  edges (fst (_activateNode s nodeId signal metadata now)) = edges s /\
  timers (fst (_activateNode s nodeId signal metadata now)) = timers s.
Proof.
  unfold _activateNode. destruct (map_get nodeId (nodes s)) as [n|]; [|now repeat split].
  cbn [handlers]. destruct (run_handlers _ _ _ _ _) as [n' hr]. now repeat split.
Qed.


(** ** Signals that are not negative *)













(** ** Groups and broadcast *)

Lemma add_to_groups_fold id groups g :
  add_to_groups id groups g = fold_left (join id) groups g.
Proof. reflexivity. Qed.

Lemma set_add_In x y l : In y (set_add x l) <-> y = x \/ In y l.
Proof.
  unfold set_add. destruct (existsb (String.eqb x) l) eqn:E.
  - apply existsb_eqb_In in E. split; [now right|]. now intros [->|H].
  - rewrite in_app_iff. cbn [In]. split.
    + intros [H|[H|[]]]; [now right | now left].
    + intros [->|H]; [right; now left | now left].
Qed.

Lemma set_add_NoDup x l : NoDup l -> NoDup (set_add x l).
Proof.
  intros H. unfold set_add. destruct (existsb (String.eqb x) l) eqn:E; [exact H|].
  assert (Hn : ~ In x l) by (rewrite <- existsb_eqb_In; now rewrite E).
  clear E. induction H as [|y l Hy Hl IH]; cbn [app].
  - constructor; [intros [] | constructor].
  - constructor.
    + rewrite in_app_iff. cbn [In]. intros [H|[H|[]]]; [contradiction|].
      apply Hn. now left.
    + apply IH. intros H. apply Hn. now right.
Qed.

Lemma join_spec id g group :
  (exists ms, map_get group (join id g group) = Some ms /\ In id ms /\
              (forall x, member g group x -> In x ms) /\
              ((forall ms0, map_get group g = Some ms0 -> NoDup ms0) -> NoDup ms)) /\
  (forall other, other <> group ->
                 map_get other (join id g group) = map_get other g).
Proof.
  unfold join, map_has. split.
  - destruct (map_get group g) as [ms0|] eqn:E.
    + rewrite map_get_set_eq. eexists. split; [reflexivity|].
      rewrite E. cbn [or_default]. split; [|split].
      * apply set_add_In. now left.
      * intros x (ms & Hm & Hx). rewrite E in Hm. injection Hm as <-.
        apply set_add_In. now right.
      * intros H. apply set_add_NoDup. now apply H.
    + rewrite map_get_set_eq. eexists. split; [reflexivity|].
      rewrite map_get_set_eq. cbn [or_default]. split; [|split].
      * apply set_add_In. now left.
      * intros x (ms & Hm & _). rewrite E in Hm. discriminate Hm.
      * intros _. apply set_add_NoDup. constructor.
  - intros other Hne.
    rewrite map_get_set_neq by (intros H; now apply Hne).
    destruct (map_get group g); [reflexivity|].
    apply map_get_set_neq. intros H. now apply Hne.
Qed.

Lemma join_keeps id g group other x :
  member g other x -> member (join id g group) other x.
Proof.
  intros H. destruct (join_spec id g group) as [(ms & Hm & _ & Hk & _) Ho].
  destruct (string_dec other group) as [->|Hne].
  - exists ms. split; [exact Hm | now apply Hk].
  - destruct H as (ms0 & H0 & Hx). exists ms0. split; [|exact Hx].
    now rewrite Ho.
Qed.

Lemma join_sets id g group :
  (forall k ms, map_get k g = Some ms -> NoDup ms) ->
  forall k ms, map_get k (join id g group) = Some ms -> NoDup ms.
Proof.
  intros H k ms Hk. destruct (join_spec id g group) as [(ms' & Hm & _ & _ & Hn) Ho].
  destruct (string_dec k group) as [->|Hne].
  - rewrite Hm in Hk. injection Hk as <-. apply Hn. intros ms0. apply H.
  - rewrite Ho in Hk by exact Hne. now apply (H k).
Qed.

Lemma add_to_groups_spec id groups :
  forall g,
    (forall group, In group groups -> member (add_to_groups id groups g) group id) /\
    (forall other x, member g other x -> member (add_to_groups id groups g) other x) /\
    (forall other, ~ In other groups ->
                   map_get other (add_to_groups id groups g) = map_get other g) /\
    ((forall k ms, map_get k g = Some ms -> NoDup ms) ->
     forall k ms, map_get k (add_to_groups id groups g) = Some ms -> NoDup ms).
Proof.
  induction groups as [|group groups IH]; intros g; rewrite add_to_groups_fold;
    cbn [fold_left]; rewrite <- ?add_to_groups_fold.
  - repeat split; try tauto. intros other [].
  - destruct (IH (join id g group)) as (I1 & I2 & I3 & I4).
    split; [|split; [|split]].
    + intros grp [<-|Hin]; [|now apply I1].
      apply I2. destruct (join_spec id g group) as [(ms & Hm & Hi & _) _].
      exists ms. now split.
    + intros other x H. apply I2. now apply join_keeps.
    + intros other Hn. rewrite I3 by (intros H; apply Hn; now right).
      apply (proj2 (join_spec id g group)). intros ->. apply Hn. now left.
    + intros H. apply I4. now apply join_sets.
Qed.

(** X6.  [registerNode(id, config)] with [config.groups] puts [id] in each
    of the named groups, creating the group when it is new; it keeps every
    member the groups had, leaves the other groups alone, and a group that
    held no node twice still holds none twice, also when [config.groups]
    names a group twice or the node is registered again. *)
Theorem registerNode_joins_its_groups
        (s : Substrate) (id : string) (config : NodeConfig) (groups : list string) :
  cfg_groups config = Some groups ->
  let s' := fst (registerNode s id (Some config)) in
  (forall group, In group groups -> member (nodeGroups s') group id) /\
  (forall group x, member (nodeGroups s) group x -> member (nodeGroups s') group x) /\
  (forall group, ~ In group groups ->
                 map_get group (nodeGroups s') = map_get group (nodeGroups s)) /\
  ((forall group ms, map_get group (nodeGroups s) = Some ms -> NoDup ms) ->
   forall group ms, map_get group (nodeGroups s') = Some ms -> NoDup ms).
Proof.
  intros Hg. cbv zeta. unfold registerNode. rewrite Hg.
  cbn [fst nodeGroups set_nodeGroups set_nodes].
  apply add_to_groups_spec.
Qed.

Lemma registerNode_joins_its_groups_witness :
  member (nodeGroups (fst (registerNode empty "gate_1" grouped))) "gates" "gate_1" /\
  (forall group ms,
      map_get group (nodeGroups (fst (registerNode empty "gate_1" grouped))) = Some ms ->
      NoDup ms).
Proof.
  destruct (registerNode_joins_its_groups
              empty "gate_1"
              (mkNodeConfig None None None None (Some ["gates"; "hd"; "gates"]))
              ["gates"; "hd"; "gates"] eq_refl) as (H1 & _ & _ & H4).
  split.
  - apply H1. now left.
  - apply H4. intros group ms H. discriminate H.
Defined.

Lemma drain_keeps_groups pid now queue :
  forall visited u, nodeGroups (fst (drain pid now queue visited u)) = nodeGroups u.
Proof.
  induction queue as [|msg rest IH]; intros visited u; cbn [drain].
  - reflexivity.
  - destruct (existsb _ visited).
    + now rewrite IH.
    + destruct (_activateNode_frame (set_messageQueue rest u) (msg_to msg)
                  (msg_signal msg) (msg_metadata msg) now) as (_ & F & _).
      destruct (_activateNode (set_messageQueue rest u) (msg_to msg)
                  (msg_signal msg) (msg_metadata msg) now) as [s1 r].
      match goal with
      | |- context [drain pid now rest ?v ?w] =>
          specialize (IH v w); destruct (drain pid now rest v w) as [u' rs]
      end.
      cbn [fst] in *. rewrite IH. exact F.
Qed.

Lemma propagate_keeps_groups s src signal metadata now rnd :
  nodeGroups (fst (propagate s src signal metadata now rnd)) = nodeGroups s.
Proof.
  rewrite propagate_fst. cbv zeta.
  match goal with
  | |- context [_learnPattern (fst ?d) src (snd ?d)] =>
      destruct (_learnPattern_frame src (snd d) (fst d)) as (_ & _ & _ & _ & L)
  end.
  rewrite L. now rewrite drain_keeps_groups.
Qed.



(** ** approveEvolution *)

Lemma splice1_length {A} (l : list A) :
  forall i x, nth_error l i = Some x -> S (List.length (splice1 i l)) = List.length l.
Proof.
  induction l as [|y l IH]; intros [|i] x H; simpl in *; try discriminate H.
  - reflexivity.
  - f_equal. now apply (IH i x).
Qed.

Lemma map_set_In_values {V} k (v : V) m : In v (map_values (map_set k v m)).
Proof.
  unfold map_values. induction m as [|[k' v'] m IH]; simpl.
  - now left.
  - destruct (String.eqb k' k); simpl; [now left | now right].
Qed.

Lemma edgeExists_In s from to e :
  In e (map_values (edges s)) -> edge_from e = from -> edge_to e = to ->
  edgeExists s from to = true.
Proof.
  intros Hin <- <-. unfold edgeExists. apply existsb_exists. exists e.
  split; [exact Hin|]. now rewrite !String.eqb_refl.
Qed.

(** X8.  [approveEvolution(i)] with no proposal at index [i] changes
    nothing.  With a proposal there it takes that one entry out of the
    pending list and keeps the others in order, registers an edge from the
    proposal's source to its target under the id [evolved_<time>], with the
    proposed strength, logs one event, and touches no node. *)
Theorem approveEvolution_commits_one_proposal (o : Evolving) (i : nat) (now : Z) :
  (nth_error (proposedEdges (substrate o)) i = None ->
   approveEvolution o i now = o) /\
  (forall p,
      nth_error (proposedEdges (substrate o)) i = Some p ->
      let o' := approveEvolution o i now in
      proposedEdges (substrate o') = splice1 i (proposedEdges (substrate o)) /\
      S (List.length (proposedEdges (substrate o')))
      = List.length (proposedEdges (substrate o)) /\
      (exists e,
          map_get ("evolved_" ++ show_int now)%string (edges (substrate o')) = Some e /\
          edge_from e = prop_from p /\ edge_to e = prop_to p /\
          strength e = or_number (Some (prop_strength p)) 1) /\
      edgeExists (substrate o') (prop_from p) (prop_to p) = true /\
      nodes (substrate o') = nodes (substrate o) /\
      List.length (evolutionHistory o') = S (List.length (evolutionHistory o))).
Proof.
  unfold approveEvolution. split.
  - intros H. now rewrite H.
  - intros p H. rewrite H. cbv zeta.
    cbn [substrate evolutionHistory registerCausalEdge fst proposedEdges
         set_proposedEdges set_edges edges nodes ecfg_from ecfg_to ecfg_strength].
    split; [reflexivity|]. split; [now apply (splice1_length _ i p)|].
    split; [|split; [|split]].
    + eexists. split; [apply map_get_set_eq|]. repeat split; reflexivity.
    + eapply edgeExists_In.
      * cbn [edges]. apply map_set_In_values.
      * reflexivity.
      * reflexivity.
    + reflexivity.
    + rewrite length_app. cbn [List.length]. lia.
Qed.

Lemma approveEvolution_commits_one_proposal_witness :
  approveEvolution echo_after_six 7 99 = echo_after_six /\
  edgeExists (substrate (approveEvolution echo_after_six 0 99)) "A" "B" = true /\
  S (List.length (proposedEdges (substrate (approveEvolution echo_after_six 0 99))))
  = List.length (proposedEdges (substrate echo_after_six)).
Proof.
  destruct (approveEvolution_commits_one_proposal echo_after_six 7 99) as [H7 _].
  destruct (approveEvolution_commits_one_proposal echo_after_six 0 99) as [_ H0].
  split; [apply H7; vm_compute; reflexivity|].
  assert (Hp : nth_error (proposedEdges (substrate echo_after_six)) 0
               = Some (mkProposal "A" "B" (6 # 6) 0.6 (6%nat, 6 # 6)))
    by (vm_compute; reflexivity).
  destruct (H0 _ Hp) as (_ & Hl & _ & He & _).
  split; [exact He | exact Hl].
Defined.

(** ** A registered pair is not proposed *)

Lemma learn_one_pending a b src s r :
  edgeExists s a b = true ->
  pending (learn_one src s r) a b = pending s a b.
Proof.
  intros He. unfold learn_one. destruct r as [r|]; [|reflexivity]. cbv zeta.
  destruct (5 <? _)%nat; [|reflexivity].
  match goal with
  | |- context [edgeExists ?u src (res_nodeId r)] =>
      change (edgeExists u src (res_nodeId r)) with (edgeExists s src (res_nodeId r))
  end.
  destruct (edgeExists s src (res_nodeId r)) eqn:E; cbn [negb andb]; [reflexivity|].
  destruct (negb (Qle_bool _ 0.3)); [|reflexivity].
  unfold pending. cbn [proposedEdges set_proposedEdges set_observedPatterns].
  rewrite filter_app. cbn [filter prop_from prop_to].
  destruct (String.eqb_spec src a) as [->|Ha];
    destruct (String.eqb_spec (res_nodeId r) b) as [Hb|Hb]; cbn [andb];
    try apply app_nil_r.
  rewrite Hb in E. congruence.
Qed.

Lemma learn_one_edges src s r : edges (learn_one src s r) = edges s.
Proof. apply (learn_one_frame src s r). Qed.

Lemma _learnPattern_pending a b src rs :
  forall s,
    edgeExists s a b = true ->
    pending (_learnPattern s src rs) a b = pending s a b.
Proof.
  unfold _learnPattern. induction rs as [|r rs IH]; intros s He; cbn [fold_left].
  - reflexivity.
  - rewrite IH.
    + now apply learn_one_pending.
    + unfold edgeExists in *. now rewrite learn_one_edges.
Qed.

Lemma propagate_pending a b s src signal metadata now rnd :
  edgeExists s a b = true ->
  pending (fst (propagate s src signal metadata now rnd)) a b = pending s a b /\
  edges (fst (propagate s src signal metadata now rnd)) = edges s.
Proof.
  intros He. rewrite propagate_fst. cbv zeta.
  set (pid := propagationId now rnd). set (q := messageQueue s ++ [_]).
  destruct (drain_observer pid now q [] (set_messageQueue q s)) as (_ & Hp & Hed).
  split.
  - rewrite _learnPattern_pending.
    + unfold pending. now rewrite Hp.
    + unfold edgeExists in *. now rewrite Hed.
  - destruct (_learnPattern_frame src (snd (drain pid now q [] (set_messageQueue q s)))
                (fst (drain pid now q [] (set_messageQueue q s)))) as (_ & L & _).
    now rewrite L, Hed.
Qed.

Lemma broadcast_members_pending a b members signal metadata now rnd :
  forall i s,
    edgeExists s a b = true ->
    pending (fst (broadcast_members s members signal metadata now rnd i)) a b
    = pending s a b /\
    edges (fst (broadcast_members s members signal metadata now rnd i)) = edges s.
Proof.
  induction members as [|m members IH]; intros i s He; cbn [broadcast_members].
  - now split.
  - destruct (propagate_pending a b s m signal metadata now (rnd i) He) as [Hp Hed].
    destruct (propagate s m signal metadata now (rnd i)) as [s1 [r|e]];
      cbn [fst] in *; [|now split].
    assert (He1 : edgeExists s1 a b = true)
      by (unfold edgeExists in *; now rewrite Hed).
    destruct (IH (S i) s1 He1) as [Ip Ied].
    destruct (broadcast_members s1 members signal metadata now rnd (S i))
      as [s2 [rs|e]]; cbn [fst] in *; rewrite Ip, Ied, Hp, Hed; now split.
Qed.

Lemma calls_pending a b cs :
  forall s,
    edgeExists s a b = true ->
    existsb is_registerCausalEdge cs = false ->
    pending (calls s cs) a b = pending s a b.
Proof.
  unfold calls. induction cs as [|c cs IH]; intros s He Hc; cbn [fold_left].
  - reflexivity.
  - cbn [existsb] in Hc. apply orb_false_elim in Hc. destruct Hc as [Hc Hcs].
    assert (H : pending (call s c) a b = pending s a b /\ edges (call s c) = edges s).
    { destruct c; cbn [is_registerCausalEdge] in Hc; try discriminate Hc; cbn [call].
      - unfold registerNode. destruct config as [config|]; [|now split].
        destruct (cfg_groups config); now split.
      - now apply propagate_pending.
      - unfold broadcast. destruct (map_get groupName (nodeGroups s)); [|now split].
        now apply broadcast_members_pending.
      - now split. }
    destruct H as [Hp Hed]. rewrite IH; [exact Hp | | exact Hcs].
    unfold edgeExists in *. now rewrite Hed.
Qed.

(** X9.  Once [approveEvolution] has committed a proposal, no later
    [propagate] or [broadcast] adds a proposal for that pair of nodes: as
    long as no edge is registered over the committed one, the proposals
    pending for the pair stay what they were after the approval. *)
Theorem approved_pair_is_not_proposed_again
        (o : Evolving) (i : nat) (now : Z) (p : Proposal) (cs : list Call) :
  nth_error (proposedEdges (substrate o)) i = Some p ->
  existsb is_registerCausalEdge cs = false ->
  let s := substrate (approveEvolution o i now) in
  pending (calls s cs) (prop_from p) (prop_to p) = pending s (prop_from p) (prop_to p).
Proof.
  intros Hp Hc. cbv zeta. apply calls_pending; [|exact Hc].
  unfold approveEvolution. rewrite Hp. cbv zeta.
  cbn [substrate registerCausalEdge fst]. eapply edgeExists_In.
  - cbn [edges set_proposedEdges set_edges]. apply map_set_In_values.
  - reflexivity.
  - reflexivity.
Qed.

Lemma approved_pair_is_not_proposed_again_witness :
  pending (calls (substrate (approveEvolution echo_after_six 0 99)) five_times_A) "A" "B"
  = pending (substrate (approveEvolution echo_after_six 0 99)) "A" "B".
Proof.
  apply (approved_pair_is_not_proposed_again
           echo_after_six 0 99
           (mkProposal "A" "B" (6 # 6) 0.6 (6%nat, 6 # 6)) five_times_A);
    vm_compute; reflexivity.
Defined.

End SubstrateCoverage.


(** * More of WaveResonanceCausalGraph *)

Module WaveCoverage.
Import JS JSFacts Wave WaveFacts.
Local Open Scope string_scope.
Local Open Scope list_scope.
Local Open Scope R_scope.

(** ** Frequencies *)

Lemma harmonic_range (field : option string) :
  0.5 <= _getFieldHarmonic field <= 2.
Proof.
  unfold _getFieldHarmonic. destruct field as [f|]; [|lra].
  unfold harmonics. cbn [map_get].
  repeat match goal with
         | |- context [String.eqb ?a f] => destruct (String.eqb a f)
         end;
    unfold or_number;
    try match goal with
        | |- context [Req_dec_T ?x 0] => destruct (Req_dec_T x 0)
        end; lra.
Qed.

Lemma _calculateFrequency_range g gate line color tone :
  200 <= _calculateFrequency g gate line color tone <= 2000.
Proof.
  unfold _calculateFrequency. cbv zeta. split.
  - apply Rmax_l.
  - apply Rmax_lub; [lra | apply Rmin_l].
Qed.


(** ** Harmonic resonance *)

Lemma resonance_fold (freqRatio : R) (rs : list (R * R)) :
  Forall (fun r => 0 <= snd r <= 1) rs ->
  forall best,
    0 <= best <= 1 ->
    0 <= fold_left
           (fun bestResonance rs =>
              let diff := Rabs (freqRatio - fst rs) in
              if Rlt_dec diff 0.05
              then Rmax bestResonance (snd rs * (1 - diff))
              else bestResonance)
           rs best <= 1.
Proof.
  intros H. induction H as [|r rs Hr Hrs IH]; intros best Hb; cbn [fold_left].
  - exact Hb.
  - apply IH. cbv zeta. destruct (Rlt_dec _ 0.05) as [Hd|_]; [|exact Hb].
    pose proof (Rabs_pos (freqRatio - fst r)) as Hp.
    split.
    + apply Rle_trans with best; [lra | apply Rmax_l].
    + apply Rmax_lub; [lra | nra].
Qed.

(** X11.  [_calculateHarmonicResonance] returns a number between 0 and 1
    for every frequency ratio. *)
Theorem harmonic_resonance_is_a_fraction (freqRatio : R) :
  0 <= _calculateHarmonicResonance freqRatio <= 1.
Proof.
  unfold _calculateHarmonicResonance. apply resonance_fold; [|lra].
  unfold ratios. repeat constructor; cbn [snd]; lra.
Qed.

Lemma Rabs_of x y : (0 <= x -> y = x) -> (x <= 0 -> y = - x) -> Rabs x = y.
Proof.
  intros Hp Hn. unfold Rabs. destruct (Rcase_abs x); [rewrite Hn | rewrite Hp]; lra.
Qed.

Lemma resonance_at_unison : _calculateHarmonicResonance 1 = 1.
Proof.
  unfold _calculateHarmonicResonance, ratios. cbn [fold_left fst snd].
  rewrite (Rabs_of (1 - 1) 0), (Rabs_of (1 - 2) 1), (Rabs_of (1 - 1.5) 0.5),
    (Rabs_of (1 - 1.333) 0.333), (Rabs_of (1 - 1.25) 0.25),
    (Rabs_of (1 - 1.618) 0.618) by (intros; lra).
  destruct (Rlt_dec 0 0.05); [|lra].
  destruct (Rlt_dec 1 0.05); [lra|].
  destruct (Rlt_dec 0.5 0.05); [lra|].
  destruct (Rlt_dec 0.333 0.05); [lra|].
  destruct (Rlt_dec 0.25 0.05); [lra|].
  destruct (Rlt_dec 0.618 0.05); [lra|].
  rewrite Rmax_right; lra.
Qed.

(** X12.  Two oscillators of the same frequency resonate fully: an edge
    that [registerResonanceEdge] stores between nodes of equal, non-zero
    frequency, a node coupled to itself among them, has harmonic
    resonance 1. *)
Theorem equal_frequencies_resonate_fully
        (g : Graph) (id : string) (config : EdgeConfig) (fromNode toNode : Node) :
  map_get (ecfg_from config) (nodes g) = Some fromNode ->
  map_get (ecfg_to config) (nodes g) = Some toNode ->
  frequency toNode = frequency fromNode ->
  frequency fromNode <> 0 ->
  exists e,
    map_get id (edges (registerResonanceEdge g id config)) = Some e /\
    harmonicResonance e = 1.
Proof.
  intros Hf Ht Heq Hnz. unfold registerResonanceEdge. rewrite Hf, Ht. cbv zeta.
  cbn [edges set_edges]. eexists. split; [apply map_get_set_eq|].
  cbn [harmonicResonance]. rewrite Heq.
  replace (frequency fromNode / frequency fromNode) with 1 by (field; exact Hnz).
  apply resonance_at_unison.
Qed.



Lemma equal_frequencies_resonate_fully_witness :
  exists e,
    map_get "aa" (edges selfCoupled) = Some e /\ harmonicResonance e = 1.
Proof.
  apply (equal_frequencies_resonate_fully
           (registerNode empty "A" gate1 0) "aa"
           (mkEdgeConfig "A" "A" (Some 1) None None) _ _ eq_refl eq_refl eq_refl).
  cbn [frequency].
  pose proof (_calculateFrequency_range empty (cfg_gate gate1) (cfg_line gate1)
                (cfg_color gate1) (cfg_tone gate1)) as Hf.
  pose proof (harmonic_range (cfg_field gate1)) as Hh.
  nra.
Defined.


(** ** The shape of a graph *)

Lemma map_set_keys {V W} k (v : V) (w : W) (m : list (string * V)) :
  forall m' : list (string * W),
    map fst m = map fst m' ->
    map fst (map_set k v m) = map fst (map_set k w m').
Proof.
  induction m as [|[k1 v1] m IH]; intros [|[k2 w2] m'] H; simpl in H;
    try discriminate H; [reflexivity|].
  injection H as -> H. simpl. destruct (String.eqb k2 k); simpl.
  - now rewrite H.
  - f_equal. now apply IH.
Qed.

Lemma map_has_set {V} k k' (v : V) m :
  map_has k' (map_set k v m) = (String.eqb k k' || map_has k' m)%bool.
Proof.
  unfold map_has. destruct (String.eqb_spec k k') as [->|Hne].
  - now rewrite map_get_set_eq.
  - now rewrite map_get_set_neq.
Qed.

Lemma map_set_present_keys {V} k (v : V) m :
  map_has k m = true -> map fst (map_set k v m) = map fst m.
Proof.
  unfold map_has. induction m as [|[k1 v1] m IH]; simpl; [discriminate|].
  destruct (String.eqb_spec k1 k) as [->|Hne]; simpl; [reflexivity|].
  intros H. f_equal. now apply IH.
Qed.

Lemma map_has_keys {V W} k (m : list (string * V)) :
  forall m' : list (string * W),
    map fst m = map fst m' -> map_has k m = map_has k m'.
Proof.
  unfold map_has. induction m as [|[k1 v1] m IH]; intros [|[k2 w2] m'] H;
    simpl in H; try discriminate H; [reflexivity|].
  injection H as -> H. simpl. destruct (String.eqb k2 k); [reflexivity|].
  now apply IH.
Qed.

Lemma map_set_Forall_kv {V} (P : string * V -> Prop) k v (m : list (string * V)) :
  Forall P m -> P (k, v) -> Forall P (map_set k v m).
Proof.
  intros Hm Hv. induction Hm as [|[k' v'] m Hh Ht IH]; simpl.
  - constructor; [exact Hv | constructor].
  - destruct (String.eqb k' k); constructor; auto.
Qed.

Lemma map_get_In {V} k (v : V) m : map_get k m = Some v -> exists k', In (k', v) m.
Proof.
  induction m as [|[k1 v1] m IH]; simpl; [discriminate|].
  destruct (String.eqb k1 k).
  - intros [= <-]. exists k1. now left.
  - intros H. destruct (IH H) as [k' Hk]. exists k'. now right.
Qed.

Lemma map_get_has {V} k (v : V) m : map_get k m = Some v -> map_has k m = true.
Proof. unfold map_has. now intros ->. Qed.

Lemma In_map_has {V} k (v : V) m : In (k, v) m -> map_has k m = true.
Proof.
  unfold map_has. induction m as [|[k1 v1] m IH]; simpl; [intros []|].
  intros [H|H].
  - injection H as -> ->. now rewrite String.eqb_refl.
  - destruct (String.eqb k1 k); [reflexivity | now apply IH].
Qed.

Lemma retuned_refl g : retuned g g.
Proof.
  repeat split. induction (nodes g) as [|kv m IH]; constructor; auto.
Qed.

Lemma retuned_trans g1 g2 g3 : retuned g1 g2 -> retuned g2 g3 -> retuned g1 g3.
Proof.
  intros (E1 & F1 & N1) (E2 & F2 & N2). split; [congruence|]. split; [congruence|].
  revert N2. generalize (nodes g3). induction N1 as [|a b l l' (Ha & Hb & Hc) N IH];
    intros l3 N2; inversion N2 as [|? c ? l3' (Hd & He & Hf) N3]; subst; constructor.
  - repeat split; congruence.
  - now apply IH.
Qed.

Lemma retuned_set g k n n' :
  map_get k (nodes g) = Some n ->
  node_id n' = node_id n -> handler n' = handler n ->
  retuned g (set_nodes (map_set k n' (nodes g)) g).
Proof.
  intros Hk Hi Hh. split; [reflexivity|]. split; [reflexivity|].
  cbn [nodes set_nodes]. revert Hk.
  induction (nodes g) as [|[k1 v1] m IH]; simpl; [discriminate|].
  destruct (String.eqb_spec k1 k) as [->|Hne].
  - intros [= ->]. constructor.
    + cbn [fst snd]. auto.
    + clear IH. induction m as [|kv m IH]; constructor; auto.
  - intros H. constructor; [cbn [fst snd]; auto | now apply IH].
Qed.

Lemma retuned_keys g g' : retuned g g' -> map fst (nodes g') = map fst (nodes g).
Proof.
  intros (_ & _ & N). induction N as [|a b l l' (Ha & _) N IH]; simpl; congruence.
Qed.

Lemma retuned_well_formed g g' : retuned g g' -> well_formed g -> well_formed g'.
Proof.
  intros R (K & I & E). pose proof (retuned_keys g g' R) as Hk.
  destruct R as (Ed & Fs & N). split; [congruence|]. split.
  - clear K E Hk. induction N as [|a b l l' (Ha & Hb & _) N IH]; constructor.
    + inversion I; subst. congruence.
    + inversion I; subst. now apply IH.
  - rewrite Ed. revert E. apply Forall_impl. intros kv [H1 H2].
    rewrite (map_has_keys _ (nodes g') (nodes g) Hk).
    rewrite (map_has_keys _ (nodes g') (nodes g) Hk). now split.
Qed.

Lemma retuned_handlers g g' : retuned g g' -> handlers_return g -> handlers_return g'.
Proof.
  intros (_ & _ & N) H. unfold handlers_return in *.
  induction N as [|a b l l' (_ & _ & Hc) N IH]; constructor.
  - inversion H; subst. rewrite Hc. assumption.
  - inversion H; subst. now apply IH.
Qed.

Lemma couple_fst g edge :
  fst (couple g edge)
  = match map_get (edge_to edge) (nodes g) with
    | None => g
    | Some targetNode =>
        set_nodes
          (map_set (edge_to edge)
                   (set_amplitude targetNode
                      (Rmin 1.0 (amplitude targetNode + Rabs (transferred g edge) * 0.01)))
                   (nodes g)) g
    end.
Proof.
  unfold couple. destruct (map_get (edge_to edge) (nodes g)) as [t|]; [|reflexivity].
  cbv zeta. cbn [handler set_amplitude].
  destruct (handler t) as [h|]; [|reflexivity].
  destruct (Rlt_dec _ _); [|reflexivity].
  destruct (map_get (edge_from edge) _); [|reflexivity].
  destruct (h _ _ _); reflexivity.
Qed.

Lemma couple_retuned g edge : retuned g (fst (couple g edge)).
Proof.
  rewrite couple_fst. destruct (map_get (edge_to edge) (nodes g)) as [t|] eqn:E.
  - now apply (retuned_set g (edge_to edge) t).
  - apply retuned_refl.
Qed.

Lemma couplings_retuned es : forall g, retuned g (fst (couplings g es)).
Proof.
  induction es as [|e es IH]; intros g; cbn [couplings].
  - apply retuned_refl.
  - pose proof (couple_retuned g e) as Hc.
    destruct (couple g e) as [g1 [u|err]]; cbn [fst] in *; [|exact Hc].
    eapply retuned_trans; [exact Hc | apply IH].
Qed.

Lemma wave_fold_keys (f : string * Node -> R) (l : list (string * Node)) :
  forall fs : list (string * R),
    (forall kv, In kv l -> map_has (fst kv) fs = true) ->
    map fst (fold_left (fun fs kv => map_set (fst kv) (f kv) fs) l fs) = map fst fs.
Proof.
  induction l as [|kv l IH]; intros fs H; cbn [fold_left]; [reflexivity|].
  assert (Hk : map fst (map_set (fst kv) (f kv) fs) = map fst fs).
  { apply map_set_present_keys. apply H. now left. }
  rewrite IH; [exact Hk|].
  intros kv' Hin. rewrite (map_has_keys _ _ fs Hk). apply H. now right.
Qed.

Lemma wave_values_keys g :
  map fst (fieldState g) = map fst (nodes g) ->
  map fst (wave_values g) = map fst (fieldState g).
Proof.
  intros K. unfold wave_values.
  apply (wave_fold_keys
           (fun kv => _generateWave (amplitude (snd kv)) (frequency (snd kv))
                                    (phase (snd kv)) (time g) (waveform (snd kv)))).
  intros [k v] Hin. rewrite (map_has_keys _ (fieldState g) (nodes g) K).
  now apply (In_map_has k v).
Qed.

Lemma learn_pairs_frame active :
  forall g,
    nodes (learn_pairs active g) = nodes g /\
    edges (learn_pairs active g) = edges g /\
    fieldState (learn_pairs active g) = fieldState g.
Proof.
  assert (P : forall a g b, nodes (learn_pair a g b) = nodes g /\
                            edges (learn_pair a g b) = edges g /\
                            fieldState (learn_pair a g b) = fieldState g).
  { intros a g b. unfold learn_pair. cbv zeta.
    destruct (Rlt_dec _ _); [|now repeat split].
    destruct (edgeBetween _ _ _); now repeat split. }
  assert (Rw : forall a bs g, nodes (fold_left (learn_pair a) bs g) = nodes g /\
                              edges (fold_left (learn_pair a) bs g) = edges g /\
                              fieldState (fold_left (learn_pair a) bs g) = fieldState g).
  { intros a bs. induction bs as [|b bs IH]; intros g; cbn [fold_left];
      [now repeat split|].
    destruct (IH (learn_pair a g b)) as (H1 & H2 & H3).
    destruct (P a g b) as (G1 & G2 & G3). rewrite H1, H2, H3. now repeat split. }
  induction active as [|a rest IH]; intros g; cbn [learn_pairs]; [now repeat split|].
  destruct (IH (fold_left (learn_pair a) rest g)) as (H1 & H2 & H3).
  destruct (Rw a rest g) as (G1 & G2 & G3). rewrite H1, H2, H3. now repeat split.
Qed.

Lemma _updateWaveField_retuned g step :
  well_formed g -> retuned g (fst (_updateWaveField g step)).
Proof.
  intros (K & _). unfold _updateWaveField. cbv zeta.
  set (g1 := set_fieldState _ _).
  assert (R1 : retuned g g1).
  { split; [reflexivity|]. split.
    - unfold g1. cbn [fieldState set_fieldState].
      apply (wave_values_keys (set_time (INR step / sampleRate g) g)). exact K.
    - apply (retuned_refl g). }
  pose proof (couplings_retuned (map_values (edges g1)) g1) as R2.
  destruct (couplings g1 (map_values (edges g1))) as [g2 [u|e]]; cbn [fst] in *.
  - destruct (step mod 100 =? 0)%nat; cbn [fst].
    + unfold _learnResonancePatterns.
      destruct (learn_pairs_frame
                  (filter (fun n => if Rlt_dec 0.3 (amplitude n) then true else false)
                          (map_values (nodes g2))) g2) as (L1 & L2 & L3).
      eapply retuned_trans; [exact R1|]. eapply retuned_trans; [exact R2|].
      split; [exact L2|]. split; [now rewrite L3|]. rewrite L1.
      apply (retuned_refl g2).
    + eapply retuned_trans; eassumption.
  - eapply retuned_trans; eassumption.
Qed.

Lemma excite_retuned g id a : retuned g (excite g id a).
Proof.
  unfold excite. destruct (map_get id (nodes g)) as [n|] eqn:E.
  - now apply (retuned_set g id n).
  - apply retuned_refl.
Qed.

Lemma timesteps_retuned n :
  forall g step, well_formed g -> retuned g (fst (timesteps g step n)).
Proof.
  induction n as [|n IH]; intros g step W; cbn [timesteps].
  - apply retuned_refl.
  - pose proof (_updateWaveField_retuned g step W) as R.
    destruct (_updateWaveField g step) as [g1 [u|e]]; cbn [fst] in *; [|exact R].
    eapply retuned_trans; [exact R|]. apply IH.
    now apply (retuned_well_formed g).
Qed.

Lemma propagate_retuned g src a d :
  well_formed g -> retuned g (fst (propagate g src a d)).
Proof.
  intros W. unfold propagate. destruct (map_get src (nodes g)); [|apply retuned_refl].
  cbv zeta. pose proof (excite_retuned g src a) as R1.
  pose proof (timesteps_retuned
                (Z.to_nat (Int_part (d / (1000 / sampleRate (excite g src a)))))
                (excite g src a) 0 (retuned_well_formed _ _ R1 W)) as R2.
  destruct (timesteps (excite g src a) 0 _) as [g2 [u|e]]; cbn [fst] in *.
  - destruct (map_get src (nodes g2)); cbn [fst].
    + eapply retuned_trans; [exact R1|]. eapply retuned_trans; [exact R2|].
      apply excite_retuned.
    + eapply retuned_trans; eassumption.
  - eapply retuned_trans; eassumption.
Qed.

Lemma excite_all_retuned ids a rnd :
  forall i g, retuned g (fst (excite_all g ids a rnd i)).
Proof.
  induction ids as [|id ids IH]; intros i g; cbn [excite_all].
  - apply retuned_refl.
  - destruct (map_get id (nodes g)) as [n|] eqn:E; [|apply retuned_refl].
    eapply retuned_trans; [|apply IH].
    now apply (retuned_set g id n).
Qed.

Lemma broadcast_retuned g group a rnd :
  well_formed g -> retuned g (fst (broadcast g group a rnd)).
Proof.
  intros W. unfold broadcast. cbv zeta.
  destruct (groupIds g group) as [|id ids]; [apply retuned_refl|].
  pose proof (excite_all_retuned (id :: ids) a rnd 0 g) as R1.
  destruct (excite_all g (id :: ids) a rnd 0) as [g1 [u|e]]; cbn [fst] in *;
    [|exact R1].
  pose proof (_updateWaveField_retuned g1 0 (retuned_well_formed _ _ R1 W)) as R2.
  destruct (_updateWaveField g1 0) as [g2 [u'|e]]; cbn [fst] in *;
    eapply retuned_trans; eassumption.
Qed.

Lemma registerResonanceEdge_well_formed g id config :
  well_formed g -> well_formed (registerResonanceEdge g id config).
Proof.
  intros (K & I & E). unfold registerResonanceEdge.
  destruct (map_get (ecfg_from config) (nodes g)) as [f|] eqn:Ef; [|now repeat split].
  destruct (map_get (ecfg_to config) (nodes g)) as [t|] eqn:Et; [|now repeat split].
  cbv zeta. split; [exact K|]. split; [exact I|].
  cbn [edges set_edges nodes]. apply map_set_Forall_kv; [exact E|].
  cbn [snd edge_from edge_to]. split; eapply map_get_has; eassumption.
Qed.

Lemma registerNode_well_formed g id config rnd :
  well_formed g -> well_formed (registerNode g id config rnd).
Proof.
  intros (K & I & E). unfold registerNode. cbv zeta.
  cbn [nodes edges fieldState set_nodes set_fieldState]. split; [|split].
  - now apply map_set_keys.
  - apply map_set_Forall_kv; [exact I | reflexivity].
  - revert E. apply Forall_impl. intros kv [H1 H2].
    cbn [nodes set_nodes set_fieldState].
    rewrite !map_has_set, H1, H2. now rewrite !orb_true_r.
Qed.

Lemma call_well_formed g c : well_formed g -> well_formed (call g c).
Proof.
  intros W. destruct c; cbn [call].
  - now apply registerNode_well_formed.
  - now apply registerResonanceEdge_well_formed.
  - eapply retuned_well_formed; [now apply propagate_retuned | exact W].
  - eapply retuned_well_formed; [now apply broadcast_retuned | exact W].
  - unfold approveResonance.
    destruct (nth_error (proposedResonances g) index); [|exact W].
    cbv zeta.
    match goal with
    | |- well_formed (set_proposedResonances _ ?g1) =>
        assert (W1 : well_formed g1) by now apply registerResonanceEdge_well_formed
    end.
    exact W1.
Qed.

Lemma calls_well_formed cs : forall g, well_formed g -> well_formed (calls g cs).
Proof.
  unfold calls. induction cs as [|c cs IH]; intros g W; cbn [fold_left].
  - exact W.
  - apply IH. now apply call_well_formed.
Qed.

Lemma empty_well_formed : well_formed empty.
Proof. repeat split; constructor. Qed.

(** ** A timestep on a graph built through the methods *)

Lemma couple_normal g edge :
  map_has (edge_from edge) (nodes g) = true ->
  handlers_return g ->
  snd (couple g edge) = Normal tt.
Proof.
  intros Hf Hh. unfold couple.
  destruct (map_get (edge_to edge) (nodes g)) as [t|] eqn:Et; [|reflexivity].
  cbv zeta. cbn [handler set_amplitude].
  destruct (handler t) as [h|] eqn:Eh; [|reflexivity].
  destruct (Rlt_dec _ _); [|reflexivity].
  cbn [nodes set_nodes].
  assert (Hs : map_has (edge_from edge)
                 (map_set (edge_to edge)
                    (mkNode (node_id t) (gate t) (line t) (color t) (tone t) (field t)
                       (frequency t) (phase t)
                       (Rmin 1.0 (amplitude t + Rabs (transferred g edge) * 0.01))
                       (waveform t) (Some h) (groups t) (node_metadata t))
                    (nodes g)) = true).
  { rewrite map_has_set, Hf. apply orb_true_r. }
  unfold map_has in Hs.
  unfold set_amplitude in *. rewrite Eh in *.
  destruct (map_get (edge_from edge) _) as [src|]; [|discriminate Hs].
  destruct (map_get_In _ _ _ Et) as [k Hin].
  unfold handlers_return in Hh. rewrite Forall_forall in Hh.
  now rewrite (Hh _ Hin h Eh).
Qed.

Lemma couplings_normal es :
  forall g,
    Forall (fun e => map_has (edge_from e) (nodes g) = true) es ->
    handlers_return g ->
    snd (couplings g es) = Normal tt.
Proof.
  induction es as [|e es IH]; intros g Hes Hh; cbn [couplings]; [reflexivity|].
  inversion Hes as [|? ? He Hes']; subst.
  pose proof (couple_normal g e He Hh) as Hn.
  pose proof (couple_retuned g e) as R.
  destruct (couple g e) as [g1 [u|err]]; cbn [fst snd] in *; [|discriminate Hn].
  apply IH.
  - revert Hes'. apply Forall_impl. intros e' H.
    now rewrite (map_has_keys _ (nodes g1) (nodes g) (retuned_keys g g1 R)).
  - now apply (retuned_handlers g).
Qed.

(** X14.  In a graph built by any calls of [registerNode],
    [registerResonanceEdge], [propagate], [broadcast] and [approveResonance]
    on a new object, every edge joins two registered nodes, every node is
    stored under its own id and [fieldState] has an entry for each node; and
    on such a graph a timestep whose handlers return completes normally. *)
Theorem built_graph_has_no_dangling_edge (cs : list Call) :
  let g := calls empty cs in
  well_formed g /\
  (forall step, handlers_return g -> snd (_updateWaveField g step) = Normal tt).
Proof.
  cbv zeta.
  assert (W : well_formed (calls empty cs))
    by (apply calls_well_formed, empty_well_formed).
  split; [exact W|]. intros step Hh.
  unfold _updateWaveField. cbv zeta. set (g := calls empty cs) in *.
  set (g1 := set_fieldState _ _).
  assert (Hn : snd (couplings g1 (map_values (edges g1))) = Normal tt).
  { apply couplings_normal.
    - destruct W as (_ & _ & E). unfold g1. cbn [edges nodes set_fieldState set_time].
      unfold map_values. apply Forall_map. revert E. apply Forall_impl.
      intros kv [H _]. exact H.
    - exact Hh. }
  destruct (couplings g1 (map_values (edges g1))) as [g2 [u|e]]; cbn [snd] in *;
    [|discriminate Hn].
  destruct (step mod 100 =? 0)%nat; reflexivity.
Qed.

Lemma built_graph_has_no_dangling_edge_witness :
  well_formed twoNodes /\ snd (_updateWaveField twoNodes 0) = Normal tt.
Proof.
  destruct (built_graph_has_no_dangling_edge
              [RegisterNode "A" gate1 0; RegisterNode "B" gate64 0;
               RegisterResonanceEdge "ab" (mkEdgeConfig "A" "B" (Some 1) None None);
               RegisterResonanceEdge "ba" (mkEdgeConfig "B" "A" (Some 1) None None)])
    as [W H].
  split; [exact W|]. apply H.
  unfold handlers_return.
  assert (E : exists a b, nodes twoNodes = [("A", a); ("B", b)] /\
                          handler a = None /\ handler b = None)
    by (eexists; eexists; repeat split; reflexivity).
  destruct E as (a & b & E & Ha & Hb).
  change (nodes (calls empty _)) with (nodes twoNodes). rewrite E.
  repeat constructor; cbn [snd]; intros h Hh; congruence.
Defined.

(** ** Amplitudes in range *)

Lemma in_range_set g k n :
  in_range g -> 0 <= amplitude n <= 1 ->
  in_range (set_nodes (map_set k n (nodes g)) g).
Proof.
  intros H Hn id a. rewrite amplitude_of_set.
  destruct (string_dec k id); [intros [= <-]; exact Hn | apply H].
Qed.

Lemma _updateWaveField_in_range g step :
  in_range g -> in_range (fst (_updateWaveField g step)).
Proof.
  intros H id a' Ha'. pose proof (_updateWaveField_amplitude g step id) as Hs.
  destruct (amplitude_of g id) as [a|] eqn:Ea.
  - destruct Hs as (a'' & E & Hb). rewrite E in Ha'. injection Ha' as <-.
    destruct (H id a Ea) as [H0 H1]. specialize (Hb H1). lra.
  - rewrite Hs in Ha'. discriminate Ha'.
Qed.

Lemma excite_in_range g id a :
  in_range g -> 0 <= a <= 1 -> in_range (excite g id a).
Proof.
  intros H Ha. unfold excite. destruct (map_get id (nodes g)); [|exact H].
  now apply in_range_set.
Qed.

Lemma timesteps_in_range n :
  forall g step, in_range g -> in_range (fst (timesteps g step n)).
Proof.
  induction n as [|n IH]; intros g step H; cbn [timesteps]; [exact H|].
  pose proof (_updateWaveField_in_range g step H) as H1.
  destruct (_updateWaveField g step) as [g1 [u|e]]; cbn [fst] in *; [|exact H1].
  now apply IH.
Qed.

Lemma propagate_in_range g src a d :
  in_range g -> 0 <= a <= 1 -> in_range (fst (propagate g src a d)).
Proof.
  intros H Ha. unfold propagate.
  destruct (map_get src (nodes g)) as [n0|]; [|exact H].
  cbv zeta.
  pose proof (timesteps_in_range
                (Z.to_nat (Int_part (d / (1000 / sampleRate (excite g src a)))))
                (excite g src a) 0 (excite_in_range g src a H Ha)) as H2.
  destruct (timesteps (excite g src a) 0 _) as [g2 [u|e]]; cbn [fst] in *;
    [|exact H2].
  destruct (map_get src (nodes g2)) as [n|] eqn:En; cbn [fst]; [|exact H2].
  apply excite_in_range; [exact H2|].
  assert (Hn : 0 <= amplitude n <= 1).
  { apply (H2 src). unfold amplitude_of. now rewrite En. }
  lra.
Qed.

Lemma excite_all_in_range ids a rnd :
  0 <= a <= 1 ->
  forall i g, in_range g -> in_range (fst (excite_all g ids a rnd i)).
Proof.
  intros Ha. induction ids as [|id ids IH]; intros i g H; cbn [excite_all].
  - exact H.
  - destruct (map_get id (nodes g)) as [n|]; [|exact H].
    apply IH. now apply in_range_set.
Qed.

Lemma broadcast_in_range g group a rnd :
  in_range g -> 0 <= a <= 1 -> in_range (fst (broadcast g group a rnd)).
Proof.
  intros H Ha. unfold broadcast. cbv zeta.
  destruct (groupIds g group) as [|id ids]; [exact H|].
  pose proof (excite_all_in_range (id :: ids) a rnd Ha 0 g H) as H1.
  destruct (excite_all g (id :: ids) a rnd 0) as [g1 [u|e]]; cbn [fst] in *;
    [|exact H1].
  pose proof (_updateWaveField_in_range g1 0 H1) as H2.
  destruct (_updateWaveField g1 0) as [g2 [u'|e]]; exact H2.
Qed.

Lemma registerResonanceEdge_nodes g id config :
  nodes (registerResonanceEdge g id config) = nodes g.
Proof.
  unfold registerResonanceEdge.
  destruct (map_get (ecfg_from config) (nodes g)); [|reflexivity].
  destruct (map_get (ecfg_to config) (nodes g)); reflexivity.
Qed.

Lemma call_in_range g c : gentle c -> in_range g -> in_range (call g c).
Proof.
  intros Hc H. destruct c; cbn [call gentle] in *.
  - unfold registerNode. cbv zeta. intros k a. unfold amplitude_of.
    cbn [nodes set_fieldState].
    change (option_map amplitude (map_get k (map_set id ?n (nodes g))))
      with (amplitude_of (set_nodes (map_set id n (nodes g)) g) k).
    revert k a. apply in_range_set; [exact H|]. cbn [amplitude]. lra.
  - intros k a. unfold amplitude_of. rewrite registerResonanceEdge_nodes. apply H.
  - now apply propagate_in_range.
  - now apply broadcast_in_range.
  - unfold approveResonance.
    destruct (nth_error (proposedResonances g) index); [|exact H].
    cbv zeta. intros k a. unfold amplitude_of.
    cbn [nodes set_proposedResonances]. rewrite registerResonanceEdge_nodes. apply H.
Qed.

(** X15.  On a new graph, as long as every amplitude passed to [propagate]
    and [broadcast] is between 0 and 1, every node's amplitude stays between
    0 and 1 through any calls, also when a handler throws in the middle of a
    timestep. *)
Theorem amplitudes_stay_in_range (cs : list Call) (id : string) (a : R) :
  Forall gentle cs ->
  amplitude_of (calls empty cs) id = Some a ->
  0 <= a <= 1.
Proof.
  intros Hc. revert id a. change (in_range (calls empty cs)).
  assert (G : forall g, in_range g -> in_range (calls g cs)).
  { unfold calls. induction Hc as [|c cs Hg Hcs IH]; intros g H; cbn [fold_left].
    - exact H.
    - apply IH. now apply call_in_range. }
  apply G. intros id a H. discriminate H.
Qed.

Lemma amplitudes_stay_in_range_witness :
  exists a,
    amplitude_of (calls twoNodes [Propagate "A" 0.5 0]) "A" = Some a /\ 0 <= a <= 1.
Proof.
  assert (E : exists a,
             amplitude_of (calls twoNodes [Propagate "A" 0.5 0]) "A" = Some a).
  { unfold calls, amplitude_of. cbn [fold_left call].
    pose proof (retuned_keys twoNodes (fst (propagate twoNodes "A" 0.5 0))
                  (propagate_retuned twoNodes "A" 0.5 0
                     (calls_well_formed _ empty empty_well_formed))) as K.
    change (map fst (nodes twoNodes)) with ["A"; "B"] in K.
    destruct (nodes (fst (propagate twoNodes "A" 0.5 0))) as [|[k n] m];
      [discriminate K|].
    injection K as -> K. cbn [map_get]. rewrite String.eqb_refl.
    eexists. reflexivity. }
  destruct E as [a E]. exists a. split; [exact E|].
  apply (amplitudes_stay_in_range
           [RegisterNode "A" gate1 0; RegisterNode "B" gate64 0;
            RegisterResonanceEdge "ab" (mkEdgeConfig "A" "B" (Some 1) None None);
            RegisterResonanceEdge "ba" (mkEdgeConfig "B" "A" (Some 1) None None);
            Propagate "A" 0.5 0]
           "A" a).
  - repeat constructor; cbn [gentle]; lra.
  - exact E.
Defined.

(** ** analyzeFieldCoherence *)



Lemma quotient_pos (t n : R) : 0 < n -> 0 <= t -> 0 <= t / n.
Proof.
  intros Hn Ht. unfold Rdiv. apply Rmult_le_pos; [exact Ht|].
  left. now apply Rinv_0_lt_compat.
Qed.



(** ** _generateWave *)

Lemma scaled_within (a m : R) : -1 <= m <= 1 -> Rabs (a * m) <= Rabs a.
Proof.
  intros Hm. rewrite Rabs_mult.
  assert (Rabs m <= 1) by (apply Rabs_le; lra).
  pose proof (Rabs_pos a). nra.
Qed.

Lemma floor_bounds (x : R) : floor x <= x < floor x + 1.
Proof.
  unfold floor. destruct (base_Int_part x) as [H1 H2]. lra.
Qed.

(** X17.  The wave value [_generateWave] returns is never larger in
    magnitude than the amplitude, for the sine, the square and the sawtooth
    wave and for every unknown waveform name; for the triangle wave this
    holds when the argument [omega * time + phase] is not negative. *)
Theorem wave_stays_within_amplitude (a f p t : R) (w : string) :
  (w = "triangle" -> 0 <= 2 * PI * f * t + p) ->
  Rabs (_generateWave a f p t w) <= Rabs a.
Proof.
  intros Htri. unfold _generateWave. cbv zeta.
  pose proof (SIN_bound (2 * PI * f * t + p)) as Hs.
  pose proof PI_RGT_0 as Hpi.
  destruct (String.eqb w "sine"); [now apply scaled_within|].
  destruct (String.eqb w "square").
  { apply scaled_within. unfold sign.
    destruct (Rlt_dec _ _); [lra|]. destruct (Rlt_dec _ _); lra. }
  destruct (String.eqb w "sawtooth").
  { apply scaled_within.
    pose proof (floor_bounds ((2 * PI * f * t + p) / (2 * PI) + 0.5)). lra. }
  destruct (String.eqb w "triangle") eqn:E; [|now apply scaled_within].
  apply String.eqb_eq in E. specialize (Htri E).
  apply scaled_within.
  assert (H0 : 0 <= (2 * PI * f * t + p) / (2 * PI))
    by (apply quotient_pos; lra).
  unfold rem1. destruct (Rle_dec _ _) as [_|N]; [|contradiction].
  pose proof (floor_bounds ((2 * PI * f * t + p) / (2 * PI))).
  destruct (Rlt_dec _ _); lra.
Qed.

Lemma wave_stays_within_amplitude_witness :
  Rabs (_generateWave 0.5 440 0 0 "triangle") <= Rabs 0.5.
Proof.
  apply wave_stays_within_amplitude. intros _. lra.
Defined.

(** X18.  For the triangle wave at an argument between [-2 * PI] and 0
    (a negative phase, say), [x % 1] is negative and the value is
    [amplitude * (4 * x - 1)] with [x = arg / (2 * PI)]: larger in magnitude
    than the amplitude, whenever the amplitude is not 0. *)
Theorem triangle_wave_overshoots_below_zero (a f p t : R) :
  - (2 * PI) < 2 * PI * f * t + p < 0 ->
  a <> 0 ->
  _generateWave a f p t "triangle"
  = a * (4 * ((2 * PI * f * t + p) / (2 * PI)) - 1) /\
  Rabs a < Rabs (_generateWave a f p t "triangle").
Proof.
  intros Harg Ha. pose proof PI_RGT_0 as Hpi.
  set (arg := 2 * PI * f * t + p) in *.
  assert (Hx : -1 < arg / (2 * PI) < 0).
  { split.
    - apply Rmult_lt_reg_r with (2 * PI); [lra|].
      replace (arg / (2 * PI) * (2 * PI)) with arg by (field; lra). lra.
    - apply Rmult_lt_reg_r with (2 * PI); [lra|].
      replace (arg / (2 * PI) * (2 * PI)) with arg by (field; lra). lra. }
  assert (E : _generateWave a f p t "triangle" = a * (4 * (arg / (2 * PI)) - 1)).
  { unfold _generateWave. cbv zeta. cbn [String.eqb Ascii.eqb Bool.eqb andb].
    fold arg. unfold rem1.
    destruct (Rle_dec 0 (arg / (2 * PI))) as [N|_]; [lra|].
    assert (F : floor (- (arg / (2 * PI))) = 0).
    { unfold floor. replace (Int_part (- (arg / (2 * PI)))) with 0%Z; [reflexivity|].
      apply Int_part_spec. lra. }
    rewrite F. rewrite Rplus_0_r.
    destruct (Rlt_dec _ _); [reflexivity | lra]. }
  split; [exact E|]. rewrite E, Rabs_mult.
  assert (1 < Rabs (4 * (arg / (2 * PI)) - 1)).
  { rewrite Rabs_left; lra. }
  assert (0 < Rabs a) by now apply Rabs_pos_lt. nra.
Qed.

Lemma triangle_wave_overshoots_below_zero_witness :
  Rabs 1 < Rabs (_generateWave 1 0 (- PI) 0 "triangle").
Proof.
  pose proof PI_RGT_0.
  apply (triangle_wave_overshoots_below_zero 1 0 (- PI) 0); lra.
Defined.

(** ** Learning and approving resonances *)

Local Abbreviation fresh g :=
  (fun r => 0.6 < resonance r /\
            resonance r = _calculateHarmonicResonance (freqRatio r) /\
            edgeBetween g (res_from r) (res_to r) = false).

Lemma edgeBetween_edges g g' a b :
  edges g = edges g' -> edgeBetween g a b = edgeBetween g' a b.
Proof. unfold edgeBetween. now intros ->. Qed.

Lemma fresh_edges g g' d :
  edges g = edges g' -> Forall (fresh g) d -> Forall (fresh g') d.
Proof.
  intros E. apply Forall_impl. intros r (H1 & H2 & H3).
  now rewrite <- (edgeBetween_edges g g' _ _ E).
Qed.

Lemma learn_pair_edges a g b : edges (learn_pair a g b) = edges g.
Proof.
  unfold learn_pair. cbv zeta. destruct (Rlt_dec _ _); [|reflexivity].
  destruct (edgeBetween _ _ _); reflexivity.
Qed.

Lemma learn_pair_two a b g g' :
  edges g = edges g' ->
  exists d,
    proposedResonances (learn_pair a g b) = proposedResonances g ++ d /\
    proposedResonances (learn_pair a g' b) = proposedResonances g' ++ d /\
    Forall (fresh g) d.
Proof.
  intros E. unfold learn_pair. cbv zeta.
  rewrite <- (edgeBetween_edges g g' _ _ E).
  destruct (Rlt_dec _ _) as [H|H].
  - destruct (edgeBetween g (node_id a) (node_id b)) eqn:EB.
    + exists []. rewrite !app_nil_r. repeat split. constructor.
    + eexists [_]. cbn [proposedResonances set_proposedResonances].
      repeat split. constructor; [|constructor].
      cbn [resonance freqRatio res_from res_to]. repeat split; assumption.
  - exists []. rewrite !app_nil_r. repeat split. constructor.
Qed.

Lemma fold_learn_two a bs :
  forall g g',
    edges g = edges g' ->
    exists d,
      proposedResonances (fold_left (learn_pair a) bs g) = proposedResonances g ++ d /\
      proposedResonances (fold_left (learn_pair a) bs g') = proposedResonances g' ++ d /\
      Forall (fresh g) d /\
      edges (fold_left (learn_pair a) bs g) = edges g /\
      edges (fold_left (learn_pair a) bs g') = edges g'.
Proof.
  induction bs as [|b bs IH]; intros g g' E; cbn [fold_left].
  - exists []. rewrite !app_nil_r. repeat split. constructor.
  - destruct (learn_pair_two a b g g' E) as (d1 & H1 & H1' & F1).
    pose proof (learn_pair_edges a g b) as E1.
    pose proof (learn_pair_edges a g' b) as E1'.
    destruct (IH (learn_pair a g b) (learn_pair a g' b)) as (d2 & H2 & H2' & F2 & E2 & E2');
      [congruence|].
    exists (d1 ++ d2). rewrite H2, H2', H1, H1', !app_assoc.
    repeat split; [|congruence|congruence].
    apply Forall_app. split; [exact F1|]. now apply (fresh_edges (learn_pair a g b)).
Qed.

Lemma learn_pairs_two active :
  forall g g',
    edges g = edges g' ->
    exists d,
      proposedResonances (learn_pairs active g) = proposedResonances g ++ d /\
      proposedResonances (learn_pairs active g') = proposedResonances g' ++ d /\
      Forall (fresh g) d.
Proof.
  induction active as [|a rest IH]; intros g g' E; cbn [learn_pairs].
  - exists []. rewrite !app_nil_r. repeat split. constructor.
  - destruct (fold_learn_two a rest g g' E) as (d1 & H1 & H1' & F1 & E1 & E1').
    destruct (IH (fold_left (learn_pair a) rest g) (fold_left (learn_pair a) rest g'))
      as (d2 & H2 & H2' & F2); [congruence|].
    exists (d1 ++ d2). rewrite H2, H2', H1, H1', !app_assoc.
    repeat split. apply Forall_app. split; [exact F1|].
    now apply (fresh_edges (fold_left (learn_pair a) rest g)).
Qed.

(** X19.  [_learnResonancePatterns] only appends to [proposedResonances]:
    what it appends are pairs with no edge between them, in either direction,
    and a harmonic resonance above 0.6 and at most 1.  It does not look at the
    proposals already made: learning a second time appends the same proposals
    once more. *)
Theorem learning_repeats_its_proposals (g : Graph) :
  exists d,
    proposedResonances (_learnResonancePatterns g) = proposedResonances g ++ d /\
    proposedResonances (_learnResonancePatterns (_learnResonancePatterns g))
    = (proposedResonances g ++ d) ++ d /\
    Forall (fun r => 0.6 < resonance r <= 1 /\
                     edgeBetween g (res_from r) (res_to r) = false) d.
Proof.
  unfold _learnResonancePatterns. cbv zeta.
  set (hot := fun n : Node => if Rlt_dec 0.3 (amplitude n) then true else false).
  set (active := filter hot (map_values (nodes g))).
  destruct (learn_pairs_frame active g) as (N & E & _).
  rewrite N. fold active.
  destruct (learn_pairs_two active g (learn_pairs active g)) as (d & H & H' & F);
    [now rewrite E|].
  exists d. rewrite H', H. repeat split.
  revert F. apply Forall_impl. intros r (H1 & H2 & H3). repeat split; try assumption.
  rewrite H2. unfold _calculateHarmonicResonance.
  apply resonance_fold; [|lra]. unfold ratios. repeat constructor; cbn [snd]; lra.
Qed.

Lemma registerResonanceEdge_registered g id config :
  map_has (ecfg_from config) (nodes g) = true ->
  map_has (ecfg_to config) (nodes g) = true ->
  exists e,
    registerResonanceEdge g id config = set_edges (map_set id e (edges g)) g /\
    edge_from e = ecfg_from config /\ edge_to e = ecfg_to config /\
    strength e = or_number (ecfg_strength config) 1.0 /\
    bidirectional e = or_default (ecfg_bidirectional config) false.
Proof.
  unfold map_has, registerResonanceEdge. intros Hf Ht.
  destruct (map_get (ecfg_from config) (nodes g)); [|discriminate Hf].
  destruct (map_get (ecfg_to config) (nodes g)); [|discriminate Ht].
  cbv zeta. eexists. split; [reflexivity|]. repeat split.
Qed.

Lemma existsb_map_set_intro {V} (f : V -> bool) k v m :
  f v = true -> existsb f (map_values (map_set k v m)) = true.
Proof.
  intros H. unfold map_values. induction m as [|[k' v'] m IH]; simpl.
  - now rewrite H.
  - destruct (String.eqb k' k); simpl; [now rewrite H|]. rewrite IH. apply orb_true_r.
Qed.

Lemma existsb_map_set_elim {V} (f : V -> bool) k v m :
  existsb f (map_values (map_set k v m)) = true ->
  f v = true \/ existsb f (map_values m) = true.
Proof.
  unfold map_values. induction m as [|[k' v'] m IH]; simpl.
  - rewrite orb_false_r. now left.
  - destruct (String.eqb k' k); simpl; intros H; apply orb_true_iff in H.
    + destruct H as [H|H]; [now left | right]. rewrite H. apply orb_true_r.
    + destruct H as [H|H]; [right; now rewrite H|].
      destruct (IH H) as [H'|H']; [now left | right]. rewrite H'. apply orb_true_r.
Qed.

Lemma map_set_set {V} k (v1 v2 : V) m :
  map_set k v2 (map_set k v1 m) = map_set k v2 m.
Proof.
  induction m as [|[k' v'] m IH]; simpl.
  - now rewrite String.eqb_refl.
  - destruct (String.eqb k' k) eqn:E; simpl.
    + now rewrite String.eqb_refl.
    + rewrite E. now rewrite IH.
Qed.

Lemma approveResonance_registered g i now p :
  nth_error (proposedResonances g) i = Some p ->
  map_has (res_from p) (nodes g) = true ->
  map_has (res_to p) (nodes g) = true ->
  exists e,
    approveResonance g i now
    = set_proposedResonances
        (splice1 i (proposedResonances g))
        (set_edges (map_set ("evolved_resonance_" ++ show_int now)%string e (edges g)) g) /\
    edge_from e = res_from p /\ edge_to e = res_to p /\
    strength e = or_number (Some (resonance p)) 1.0 /\
    bidirectional e = true.
Proof.
  intros Hp Hf Ht. unfold approveResonance. rewrite Hp. cbv zeta.
  destruct (registerResonanceEdge_registered
              g ("evolved_resonance_" ++ show_int now)%string
              (mkEdgeConfig (res_from p) (res_to p) (Some (resonance p)) None (Some true))
              Hf Ht) as (e & -> & H1 & H2 & H3 & H4).
  exists e. repeat split; assumption.
Qed.

(** X20.  [approveResonance] of a proposal between two registered nodes
    takes that one proposal off the list and stores a bidirectional edge
    between the two nodes, with the proposal's resonance as its strength, under
    the key made from the clock; after it, [_learnResonancePatterns] does not
    propose that pair again, in either direction. *)
Theorem approved_resonance_is_not_proposed_again
        (g : Graph) (i : nat) (now : Z) (p : Resonance) :
  nth_error (proposedResonances g) i = Some p ->
  map_has (res_from p) (nodes g) = true ->
  map_has (res_to p) (nodes g) = true ->
  let g' := approveResonance g i now in
  proposedResonances g' = splice1 i (proposedResonances g) /\
  (exists e,
      map_get ("evolved_resonance_" ++ show_int now)%string (edges g') = Some e /\
      edge_from e = res_from p /\ edge_to e = res_to p /\
      strength e = or_number (Some (resonance p)) 1.0 /\
      bidirectional e = true) /\
  exists d,
    proposedResonances (_learnResonancePatterns g') = proposedResonances g' ++ d /\
    Forall (fun r => ~ (res_from r = res_from p /\ res_to r = res_to p) /\
                     ~ (res_from r = res_to p /\ res_to r = res_from p)) d.
Proof.
  intros Hp Hf Ht. cbv zeta.
  destruct (approveResonance_registered g i now p Hp Hf Ht)
    as (e & -> & H1 & H2 & H3 & H4).
  set (g' := set_proposedResonances _ _).
  split; [reflexivity|]. split.
  { exists e. split; [apply map_get_set_eq|]. repeat split; assumption. }
  assert (B1 : edgeBetween g' (res_from p) (res_to p) = true).
  { unfold edgeBetween, g'. cbn [edges set_proposedResonances set_edges].
    apply existsb_map_set_intro. rewrite H1, H2, !String.eqb_refl. reflexivity. }
  assert (B2 : edgeBetween g' (res_to p) (res_from p) = true).
  { unfold edgeBetween, g'. cbn [edges set_proposedResonances set_edges].
    apply existsb_map_set_intro. rewrite H1, H2, !String.eqb_refl.
    apply orb_true_r. }
  unfold _learnResonancePatterns. cbv zeta.
  destruct (learn_pairs_two
              (filter (fun n => if Rlt_dec 0.3 (amplitude n) then true else false)
                      (map_values (nodes g'))) g' g' eq_refl) as (d & H & _ & F).
  exists d. split; [exact H|].
  revert F. apply Forall_impl. intros r (_ & _ & N).
  split; intros [E1 E2]; rewrite E1, E2 in N; congruence.
Qed.

Ltac evaluate :=
  cbv -[Rplus Rmult Rdiv Rminus Ropp Rinv IZR INR PI sin cos Rlt_dec Req_dec_T
        Rabs Rmax Rmin Int_part Z.pow_pos _calculateHarmonicResonance app].

(** The broadcast to the three oscillators of [trio] makes learning propose
    each of the three pairs. *)
Lemma trio_proposals :
  exists p q r,
    proposedResonances trio = [p; q; r] /\
    (res_from p = "A" /\ res_to p = "B") /\
    (res_from q = "A" /\ res_to q = "C") /\
    (res_from r = "B" /\ res_to r = "C").
Proof.
  unfold trio, calls. cbn [fold_left call].
  unfold broadcast. cbv zeta. evaluate.
  destruct (Rlt_dec (3 * / 10) (5 * / 10)) as [_|N]; [|exfalso; lra].
  match goal with
  | |- context [_calculateHarmonicResonance (?f / ?f)] =>
      assert (HF : f / f = 1)
        by (assert (0 < f) by (pose proof (Rmax_l 200 (Rmin 2000
              (220 * (1 + 64 * / 64) * (1 + 3 * / 12) * (1 + 3 * / 60)
               * (1 + 3 * / 120)))); lra);
            field; lra);
      rewrite !HF
  end.
  rewrite !resonance_at_unison.
  destruct (Rlt_dec (6 * / 10) 1) as [_|N]; [|exfalso; lra].
  cbn [app].
  do 3 eexists. split; [reflexivity|]. cbn [res_from res_to]. repeat split.
Qed.

Lemma trio_nodes : map fst (nodes trio) = ["A"; "B"; "C"].
Proof.
  change trio
    with (fst (broadcast (calls empty
                            [RegisterNode "A" gate64 0; RegisterNode "B" gate64 0;
                             RegisterNode "C" gate64 0])
                         "pair" 0.5 (fun _ => 0))).
  rewrite (retuned_keys _ _ (broadcast_retuned _ "pair" 0.5 (fun _ => 0)
                               (calls_well_formed
                                  [RegisterNode "A" gate64 0; RegisterNode "B" gate64 0;
                                   RegisterNode "C" gate64 0]
                                  empty empty_well_formed))).
  reflexivity.
Qed.

Lemma keys_map_has {V} k (m : list (string * V)) :
  In k (map fst m) -> map_has k m = true.
Proof.
  intros H. apply in_map_iff in H. destruct H as ([k' v] & <- & H).
  now apply (In_map_has k' v).
Qed.

Lemma approved_resonance_is_not_proposed_again_witness :
  exists p,
    nth_error (proposedResonances trio) 0 = Some p /\
    exists d,
      proposedResonances (_learnResonancePatterns (approveResonance trio 0 7))
      = proposedResonances (approveResonance trio 0 7) ++ d /\
      Forall (fun r => ~ (res_from r = res_from p /\ res_to r = res_to p) /\
                       ~ (res_from r = res_to p /\ res_to r = res_from p)) d.
Proof.
  destruct trio_proposals as (p & q & r & E & [Hf Ht] & _).
  exists p. split; [now rewrite E|].
  apply (approved_resonance_is_not_proposed_again trio 0 7 p).
  - now rewrite E.
  - apply keys_map_has. rewrite trio_nodes, Hf. cbn. tauto.
  - apply keys_map_has. rewrite trio_nodes, Ht. cbn. tauto.
Defined.

(** X21.  The key of an approved edge is made from the clock alone.  When
    two proposals are approved at one clock value, the second edge takes the
    place of the first: the graph has no more edges than after the first
    approval, the key holds the second pair, and the first pair, if no other
    edge joins it, is left without an edge. *)
Theorem approvals_at_one_time_share_a_key
        (g : Graph) (i j : nat) (now : Z) (p q : Resonance) :
  nth_error (proposedResonances g) i = Some p ->
  nth_error (splice1 i (proposedResonances g)) j = Some q ->
  map_has (res_from p) (nodes g) = true -> map_has (res_to p) (nodes g) = true ->
  map_has (res_from q) (nodes g) = true -> map_has (res_to q) (nodes g) = true ->
  let g1 := approveResonance g i now in
  let g2 := approveResonance g1 j now in
  map fst (edges g2) = map fst (edges g1) /\
  (exists e,
      map_get ("evolved_resonance_" ++ show_int now)%string (edges g2) = Some e /\
      edge_from e = res_from q /\ edge_to e = res_to q) /\
  (edgeBetween g (res_from p) (res_to p) = false ->
   ~ (res_from q = res_from p /\ res_to q = res_to p) ->
   ~ (res_from q = res_to p /\ res_to q = res_from p) ->
   edgeBetween g2 (res_from p) (res_to p) = false).
Proof.
  intros Hp Hq Hpf Hpt Hqf Hqt. cbv zeta.
  destruct (approveResonance_registered g i now p Hp Hpf Hpt)
    as (e1 & -> & _).
  set (key := ("evolved_resonance_" ++ show_int now)%string).
  set (g1 := set_proposedResonances _ _).
  destruct (approveResonance_registered g1 j now q Hq Hqf Hqt)
    as (e2 & -> & F2 & T2 & _).
  fold key. cbn [edges set_proposedResonances set_edges g1].
  split; [|split].
  - apply map_set_present_keys. rewrite map_has_set, String.eqb_refl. reflexivity.
  - exists e2. split; [apply map_get_set_eq|]. split; assumption.
  - intros NB N1 N2. unfold edgeBetween.
    cbn [edges set_proposedResonances set_edges]. rewrite map_set_set.
    match goal with |- ?b = false => destruct b eqn:B; [|reflexivity] end.
    exfalso. apply existsb_map_set_elim in B. destruct B as [B|B].
    + rewrite F2, T2 in B. apply orb_true_iff in B.
      destruct B as [B|B]; apply andb_true_iff in B; destruct B as [B1 B2];
        apply String.eqb_eq in B1, B2; [apply N1 | apply N2]; now split.
    + unfold edgeBetween in NB. congruence.
Qed.

Lemma approvals_at_one_time_share_a_key_witness :
  List.length (edges (approveResonance (approveResonance trio 0 7) 0 7))
  = List.length (edges (approveResonance trio 0 7)).
Proof.
  destruct trio_proposals as (p & q & r & E & [Hpf Hpt] & [Hqf Hqt] & _).
  destruct (approvals_at_one_time_share_a_key trio 0 0 7 p q) as [H _].
  - now rewrite E.
  - now rewrite E.
  - apply keys_map_has. rewrite trio_nodes, Hpf. cbn. tauto.
  - apply keys_map_has. rewrite trio_nodes, Hpt. cbn. tauto.
  - apply keys_map_has. rewrite trio_nodes, Hqf. cbn. tauto.
  - apply keys_map_has. rewrite trio_nodes, Hqt. cbn. tauto.
  - rewrite <- (length_map fst), H. apply length_map.
Defined.

(** ** connectHarmonicGates *)

Local Abbreviation kept_or_harmonic E0 :=
  (fun kv : string * Edge =>
     In kv E0 \/
     (0.7 < strength (snd kv) <= 1 /\ bidirectional (snd kv) = true)).

Lemma connect_row_spec E0 gateI i rest :
  forall j g,
    Forall (kept_or_harmonic E0) (edges g) ->
    Forall (kept_or_harmonic E0) (edges (connect_row g gateI i j rest)) /\
    nodes (connect_row g gateI i j rest) = nodes g /\
    proposedResonances (connect_row g gateI i j rest) = proposedResonances g.
Proof.
  induction rest as [|gateJ rest IH]; intros j g H; cbn [connect_row].
  - now repeat split.
  - cbv zeta. destruct (Rlt_dec 0.7 _) as [Hr|_]; [|now apply IH].
    set (id := ("harmonic_" ++ show_int (Z.of_nat i) ++ "_" ++ show_int (Z.of_nat j))%string).
    set (r := _calculateHarmonicResonance (frequency gateJ / frequency gateI)) in *.
    set (config := mkEdgeConfig (node_id gateI) (node_id gateJ) (Some r) None (Some true)).
    assert (Hr1 : r <= 1).
    { unfold r, _calculateHarmonicResonance. apply resonance_fold; [|lra].
      unfold ratios. repeat constructor; cbn [snd]; lra. }
    assert (G : Forall (kept_or_harmonic E0) (edges (registerResonanceEdge g id config)) /\
                nodes (registerResonanceEdge g id config) = nodes g /\
                proposedResonances (registerResonanceEdge g id config)
                = proposedResonances g).
    { unfold registerResonanceEdge.
      destruct (map_get (ecfg_from config) (nodes g)); [|now repeat split].
      destruct (map_get (ecfg_to config) (nodes g)); [|now repeat split].
      cbv zeta. cbn [edges nodes proposedResonances set_edges].
      split; [|now split].
      apply map_set_Forall_kv; [exact H|]. right.
      cbn [snd strength bidirectional ecfg_strength ecfg_bidirectional config
           or_number or_default].
      destruct (Req_dec_T r 0); [lra|]. split; [lra | reflexivity]. }
    destruct G as (G1 & G2 & G3).
    destruct (IH (S j) (registerResonanceEdge g id config) G1) as (I1 & I2 & I3).
    split; [exact I1|]. split; congruence.
Qed.

Lemma connect_rows_spec E0 gates :
  forall i g,
    Forall (kept_or_harmonic E0) (edges g) ->
    Forall (kept_or_harmonic E0) (edges (connect_rows g i gates)) /\
    nodes (connect_rows g i gates) = nodes g /\
    proposedResonances (connect_rows g i gates) = proposedResonances g.
Proof.
  induction gates as [|gateI rest IH]; intros i g H; cbn [connect_rows].
  - now repeat split.
  - destruct (connect_row_spec E0 gateI i rest (S i) g H) as (R1 & R2 & R3).
    destruct (IH (S i) (connect_row g gateI i (S i) rest) R1) as (I1 & I2 & I3).
    split; [exact I1|]. split; congruence.
Qed.

(** X27.  [connectHarmonicGates] touches no node and no proposal, and
    every edge of the graph after it is either an entry that was there before
    or a bidirectional edge whose strength is above 0.7 and at most 1. *)
Theorem connectHarmonicGates_adds_strong_edges_only (g : Graph) :
  nodes (connectHarmonicGates g) = nodes g /\
  proposedResonances (connectHarmonicGates g) = proposedResonances g /\
  Forall (fun kv => In kv (edges g) \/
                    (0.7 < strength (snd kv) <= 1 /\ bidirectional (snd kv) = true))
         (edges (connectHarmonicGates g)).
Proof.
  unfold connectHarmonicGates.
  destruct (connect_rows_spec (edges g) (map_values (nodes g)) 0 g) as (H1 & H2 & H3).
  - apply Forall_forall. intros kv Hin. now left.
  - now repeat split.
Qed.

End WaveCoverage.

(** * More of ReproductiveCausalGraph *)

Module ReproductiveCoverage.
Import JS JSFacts Reproductive.
Local Open Scope string_scope.
Local Open Scope list_scope.
Local Open Scope Q_scope.

(** ** _determineSpecies *)

(** X22.  The species [_determineSpecies] gives to the offspring does not
    depend on the order of the two parents. *)
Theorem species_ignores_the_order_of_parents (dnaA dnaB : DNA) :
  _determineSpecies dnaA dnaB = _determineSpecies dnaB dnaA.
Proof.
  unfold _determineSpecies.
  destruct (String.eqb_spec (dna_species dnaA) (dna_species dnaB)) as [E|N].
  - rewrite E, String.eqb_refl. reflexivity.
  - destruct (String.eqb_spec (dna_species dnaB) (dna_species dnaA)) as [E|_];
      [congruence|].
    destruct (String.leb (dna_species dnaA) (dna_species dnaB)) eqn:L1,
             (String.leb (dna_species dnaB) (dna_species dnaA)) eqn:L2;
      try reflexivity.
    + elim N. now apply String.leb_antisym.
    + destruct (String.leb_total (dna_species dnaA) (dna_species dnaB)); congruence.
Qed.

(** ** _crossBodyGenes *)

Local Abbreviation inherited genesA genesB n v :=
  (v = gene genesA n \/ v = gene genesB n \/
   v = num_half_sum (gene genesA n) (gene genesB n)).

Lemma cross_genes_spec (names genesA genesB : Genes) :
  forall offspring rnd i,
  exists genes j,
    cross_genes names genesA genesB offspring rnd i = (Normal genes, j) /\
    (i + List.length names <= j <= i + 2 * List.length names)%nat /\
    forall n,
      (In n (map fst names) ->
       exists v, map_get n genes = Some v /\ inherited genesA genesB n v) /\
      (~ In n (map fst names) -> map_get n genes = map_get n offspring).
Proof.
  induction names as [|[name x] rest IH]; intros offspring rnd i.
  - exists offspring, i. cbn [cross_genes ret List.length map].
    split; [reflexivity|]. split; [lia|]. intros n. split; [intros []|reflexivity].
  - cbn [cross_genes]. unfold bind at 1. unfold random at 1.
    set (v := if negb (Qle_bool 0.5 (rnd (S i)))
              then gene genesA name else gene genesB name).
    assert (Hstep : exists v j,
               (S i <= j <= S (S i))%nat /\ inherited genesA genesB name v /\
               bind (if negb (Qle_bool 0.5 (rnd i))
                     then bind random
                               (fun r' => ret (if negb (Qle_bool 0.5 r')
                                               then gene genesA name
                                               else gene genesB name))
                     else ret (num_half_sum (gene genesA name) (gene genesB name)))
                    (fun v => cross_genes rest genesA genesB
                                          (map_set name v offspring))
                    rnd (S i)
               = cross_genes rest genesA genesB (map_set name v offspring) rnd j).
    { destruct (negb (Qle_bool 0.5 (rnd i))).
      - exists v, (S (S i)). split; [lia|]. split.
        + unfold v. destruct (negb _); tauto.
        + reflexivity.
      - exists (num_half_sum (gene genesA name) (gene genesB name)), (S i).
        split; [lia|]. split; [tauto | reflexivity]. }
    clear v. destruct Hstep as (v & j0 & Hj0 & Hv & ->).
    destruct (IH (map_set name v offspring) rnd j0) as (genes & j & E & Hj & Hg).
    exists genes, j. split; [exact E|]. cbn [List.length map fst].
    split; [lia|]. intros n. split.
    + intros Hin. destruct (in_dec string_dec n (map fst rest)) as [Hr|Hr].
      * now apply (proj1 (Hg n)).
      * destruct Hin as [<-|Hin]; [|contradiction].
        exists v. split; [|exact Hv].
        rewrite (proj2 (Hg name) Hr). apply map_get_set_eq.
    + intros Hn. cbn [map fst In] in Hn. rewrite (proj2 (Hg n)); [|tauto].
      apply map_get_set_neq. tauto.
Qed.

(** X23.  [_crossBodyGenes] always returns.  The child body has the type of
    the first parent; it has a colour gene and a tone gene for exactly the gene
    names of the first parent, each of them the first parent's value, the
    second parent's value or the mean of the two; and its frequency is one
    parent's frequency or the mean of the two. *)
Theorem child_genes_come_from_the_parents
        (bodyA bodyB : BodyGenes) (rnd : nat -> Q) (i : nat) :
  exists child j,
    _crossBodyGenes bodyA bodyB rnd i = (Normal child, j) /\
    body_type child = body_type bodyA /\
    (body_frequency child = body_frequency bodyA \/
     body_frequency child = body_frequency bodyB \/
     body_frequency child
     = num_half_sum (body_frequency bodyA) (body_frequency bodyB)) /\
    (forall n,
        (In n (map fst (body_colorGenes bodyA)) ->
         exists v, map_get n (body_colorGenes child) = Some v /\
                   inherited (body_colorGenes bodyA) (body_colorGenes bodyB) n v) /\
        (~ In n (map fst (body_colorGenes bodyA)) ->
         map_get n (body_colorGenes child) = None)) /\
    (forall n,
        (In n (map fst (body_toneGenes bodyA)) ->
         exists v, map_get n (body_toneGenes child) = Some v /\
                   inherited (body_toneGenes bodyA) (body_toneGenes bodyB) n v) /\
        (~ In n (map fst (body_toneGenes bodyA)) ->
         map_get n (body_toneGenes child) = None)).
Proof.
  unfold _crossBodyGenes. unfold bind at 1.
  destruct (cross_genes_spec (body_colorGenes bodyA) (body_colorGenes bodyA)
                             (body_colorGenes bodyB) [] rnd i)
    as (colors & j1 & -> & _ & Hc).
  unfold bind at 1.
  destruct (cross_genes_spec (body_toneGenes bodyA) (body_toneGenes bodyA)
                             (body_toneGenes bodyB) [] rnd j1)
    as (tones & j2 & -> & _ & Ht).
  unfold bind, random, ret. eexists. eexists. split; [reflexivity|].
  cbn [body_type body_frequency body_colorGenes body_toneGenes].
  split; [reflexivity|]. split.
  - destruct (negb (Qle_bool 0.3 _)); [tauto|]. destruct (negb _); tauto.
  - split; intros n; split; try apply Hc; try apply Ht.
Qed.

(** ** mateWith *)

Lemma _crossBodyGenes_returns (bodyA bodyB : BodyGenes) (rnd : nat -> Q) (i : nat) :
  exists child j, _crossBodyGenes bodyA bodyB rnd i = (Normal child, j).
Proof.
  unfold _crossBodyGenes. unfold bind at 1.
  destruct (cross_genes_spec (body_colorGenes bodyA) (body_colorGenes bodyA)
                             (body_colorGenes bodyB) [] rnd i)
    as (colors & j1 & -> & _).
  unfold bind at 1.
  destruct (cross_genes_spec (body_toneGenes bodyA) (body_toneGenes bodyA)
                             (body_toneGenes bodyB) [] rnd j1)
    as (tones & j2 & -> & _).
  unfold bind, random, ret. eexists. eexists. reflexivity.
Qed.

(** The DNA [_crossoverDNA] builds has no [baseGenes]. *)
Lemma _crossoverDNA_has_no_baseGenes (dnaA dnaB : DNA) (now : Z) rnd i :
  exists d j, _crossoverDNA dnaA dnaB now rnd i = (Normal d, j) /\ baseGenes d = None.
Proof.
  unfold _crossoverDNA. unfold bind at 1. unfold random at 1.
  repeat (unfold bind at 1;
          match goal with
          | |- context [_crossBodyGenes ?a ?b rnd ?k] =>
              let E := fresh "E" in
              destruct (_crossBodyGenes_returns a b rnd k) as (? & ? & E);
              rewrite E; clear E
          end).
  unfold ret. eexists. eexists. split; reflexivity.
Qed.

Lemma first_birth_throws (dnaA dnaB : DNA) (now : Z) rnd i :
  exists e j,
    bind (_crossoverDNA dnaA dnaB now) (fun babyDNA => _mutateDNA babyDNA) rnd i
    = (Throw e, j).
Proof.
  unfold bind at 1.
  destruct (_crossoverDNA_has_no_baseGenes dnaA dnaB now rnd i) as (d & j & -> & H).
  unfold _mutateDNA. unfold bind at 1. unfold lift. rewrite H. cbn [read].
  eexists. eexists. reflexivity.
Qed.

(** X24.  [mateWith] never returns a baby, whatever the DNA of the two
    graphs: the DNA that [_crossoverDNA] builds has no [baseGenes], so
    [_mutateDNA] throws in the first turn of the loop.  The call either throws
    and leaves both graphs as they were, or, when the offspring count is below
    1 or not a number, returns the empty list and counts the mating on both
    graphs. *)
Theorem mateWith_bears_no_offspring
        (this other : Organism) (now : Z) (rnd : nat -> Q) (i : nat) :
  let '(this', other', result, _) := mateWith this other now rnd i in
  (result = Normal [] /\ this' = mated this now /\ other' = mated other now) \/
  (exists e, result = Throw e /\ this' = this /\ other' = other).
Proof.
  unfold mateWith.
  destruct (canMateWith this other now) as [c|e]; [|right; eauto].
  destruct (negb (compatible c)); [right; eauto|].
  destruct (read (baseGenes (dna this)) "offspringCount") as [mine|e];
    [|right; eauto].
  destruct (read (baseGenes (dna other)) "offspringCount") as [theirs|e];
    [|right; eauto].
  cbv zeta.
  destruct (turns _) as [|n]; cbn [births].
  - left. repeat split.
  - destruct (first_birth_throws (dna this) (dna other) now rnd i) as (e & j & ->).
    right. eauto.
Qed.

(** ** _mutateDNA *)

Local Abbreviation sound m :=
  (-0.2 <= mut_strength m <= 0.2 /\
   match mut_mutated m with
   | Num q =>
       if String.eqb (mut_layer m) "base" && String.eqb (mut_gene m) "baseFrequency"
       then 200 <= q <= 1000
       else 0 <= q <= 1
   | NaN => mut_original m = NaN
   end).

Lemma clamp_bounds (lo hi : Q) (x : num) :
  lo <= hi ->
  match clamp lo hi x with
  | Num q => lo <= q <= hi
  | NaN => x = NaN
  end.
Proof.
  intros H. destruct x as [q|]; cbn [clamp]; [|reflexivity]. split.
  - apply Q.le_max_l.
  - apply Q.max_lub; [exact H | apply Q.le_min_l].
Qed.

Lemma mutate_genes_spec (layer : string) (rate : Q) (rnd : nat -> Q) (names : Genes) :
  (forall k, 0 <= rnd k < 1) ->
  forall genes muts i,
    Forall (fun m => sound m) muts ->
    exists genes' muts' j,
      mutate_genes layer rate names genes muts rnd i = (Normal (genes', muts'), j) /\
      Forall (fun m => sound m) muts'.
Proof.
  intros Hrnd. induction names as [|[name value] rest IH]; intros genes muts i Hm.
  - exists genes, muts, i. split; [reflexivity | exact Hm].
  - cbn [mutate_genes]. unfold bind at 1. unfold random at 1.
    destruct (negb (Qle_bool rate (rnd i))).
    + unfold bind at 1. unfold random at 1. cbv zeta. apply IH.
      apply Forall_app. split; [exact Hm|]. constructor; [|constructor].
      cbn [mut_strength mut_mutated mut_layer mut_gene mut_original].
      split.
      * destruct (Hrnd (S i)) as [H0 H1]. split; Lqa.lra.
      * destruct (String.eqb layer "base" && String.eqb name "baseFrequency").
        -- destruct value as [q|]; cbn [num_mul num_lift2 clamp]; [|reflexivity].
           apply (clamp_bounds 200 1000 (Num _)). Lqa.lra.
        -- destruct value as [q|]; cbn [num_mul num_lift2 clamp]; [|reflexivity].
           apply (clamp_bounds 0 1 (Num _)). Lqa.lra.
    + apply IH. exact Hm.
Qed.

Lemma stream_unit (k : nat) : 0 <= stream k < 1.
Proof.
  unfold stream.
  assert (H : (0 <= Z.of_nat (k mod 10) < 10)%Z).
  { pose proof (Nat.mod_upper_bound k 10). lia. }
  split.
  - apply Qle_shift_div_l; [reflexivity|]. rewrite Qmult_0_l.
    change 0 with (inject_Z 0). rewrite <- Zle_Qle. lia.
  - apply Qlt_shift_div_r; [reflexivity|]. rewrite Qmult_1_l.
    change 10 with (inject_Z 10). rewrite <- Zlt_Qlt. lia.
Qed.

(** X25.  On a DNA that has the three gene layers, and with [Math.random()]
    in the interval from 0 to 1, [_mutateDNA] returns a DNA with a list of
    mutations: each one has a strength between -0.2 and 0.2, and a mutated
    value between 0 and 1, or between 200 and 1000 for the base gene
    [baseFrequency], unless the gene was not a number. *)
Theorem mutations_are_bounded
        (d : DNA) (base colors tones : Genes) (rnd : nat -> Q) (i : nat) :
  (forall k, 0 <= rnd k < 1) ->
  baseGenes d = Some base -> colorGenes d = Some colors -> toneGenes d = Some tones ->
  exists d' j muts,
    _mutateDNA d rnd i = (Normal d', j) /\
    dna_mutations d' = Some muts /\
    Forall (fun m => sound m) muts.
Proof.
  intros Hrnd Hb Hc Ht. unfold _mutateDNA.
  unfold bind at 1. unfold lift at 1. rewrite Hb. cbn [read].
  unfold bind at 1. unfold lift at 1. cbn [entries].
  unfold bind at 1.
  match goal with
  | |- context [mutate_genes "base" ?rate base base [] rnd i] =>
      destruct (mutate_genes_spec "base" rate rnd base Hrnd base [] i (Forall_nil _))
        as (g1 & m1 & j1 & -> & H1)
  end.
  unfold bind at 1. unfold lift at 1. rewrite Hc. cbn [entries].
  unfold bind at 1. cbn [snd fst].
  match goal with
  | |- context [mutate_genes "color" ?rate colors colors m1 rnd j1] =>
      destruct (mutate_genes_spec "color" rate rnd colors Hrnd colors m1 j1 H1)
        as (g2 & m2 & j2 & -> & H2)
  end.
  unfold bind at 1. unfold lift at 1. rewrite Ht. cbn [entries].
  unfold bind at 1. cbn [snd fst].
  match goal with
  | |- context [mutate_genes "tone" ?rate tones tones m2 rnd j2] =>
      destruct (mutate_genes_spec "tone" rate rnd tones Hrnd tones m2 j2 H2)
        as (g3 & m3 & j3 & -> & H3)
  end.
  unfold ret. cbn [snd fst]. eexists. eexists. exists m3.
  split; [reflexivity|]. split; [reflexivity | exact H3].
Qed.

Lemma mutations_are_bounded_witness :
  exists d' j muts,
    _mutateDNA founder stream 0%nat = (Normal d', j) /\
    dna_mutations d' = Some muts /\
    Forall (fun m => sound m) muts.
Proof.
  apply (mutations_are_bounded
           founder
           [("mutationRate", Num 0.5); ("baseFrequency", Num 440);
            ("offspringCount", Num 0.5); ("hybridVigor", Num 0.5)]
           [("color1_appetite", Num 0.9)]
           [("tone1_security", Num 0.1)]
           stream 0%nat stream_unit eq_refl eq_refl eq_refl).
Defined.

(** ** canMateWith *)

Local Abbreviation nonneg x :=
  (match x with Num t => 0 <= t | NaN => True end).

Lemma distance_loop_nonneg (mine : Genes) (others : option Genes) :
  forall totalDiff count r,
    nonneg totalDiff ->
    distance_loop mine others totalDiff count = Normal r ->
    nonneg (fst r).
Proof.
  induction mine as [|[name value] rest IH]; intros totalDiff count r H; cbn [distance_loop].
  - intros [= <-]. exact H.
  - destruct (read others name) as [otherValue|e]; [|discriminate].
    apply IH.
    destruct totalDiff as [t|], value as [v|], otherValue as [o|];
      cbn [num_add num_sub num_abs num_lift2]; try exact I.
    pose proof (Qabs_nonneg (v - o)). Lqa.lra.
Qed.

Lemma distance_layer_nonneg (mine others : option Genes) acc r :
  nonneg (fst acc) -> distance_layer mine others acc = Normal r -> nonneg (fst r).
Proof.
  unfold distance_layer. destruct (entries mine) as [genes|e]; [|discriminate].
  apply distance_loop_nonneg.
Qed.

Lemma _calculateGeneticDistance_nonneg (this other : Organism) (d : num) :
  _calculateGeneticDistance this other = Normal d -> nonneg d.
Proof.
  unfold _calculateGeneticDistance.
  destruct (distance_layer (baseGenes (dna this)) _ _) as [acc1|e] eqn:E1;
    [|discriminate].
  destruct (distance_layer (colorGenes (dna this)) _ _) as [acc2|e] eqn:E2;
    [|discriminate].
  destruct (distance_layer (toneGenes (dna this)) _ _) as [acc3|e] eqn:E3;
    [|discriminate].
  intros [= <-].
  apply distance_layer_nonneg in E1; [|cbn; Lqa.lra].
  apply distance_layer_nonneg in E2; [|exact E1].
  apply distance_layer_nonneg in E3; [|exact E2].
  unfold average. destruct (snd acc3) as [|n]; [exact I|].
  destruct (fst acc3) as [t|]; cbn [num_lift2]; [|exact I].
  apply Qle_shift_div_l.
  - change 0 with (inject_Z 0). rewrite <- Zlt_Qlt. lia.
  - Lqa.lra.
Qed.

(** X26.  When [canMateWith] answers that two graphs are compatible, both
    are of mating age, this graph is past its cooldown, neither is a parent or
    an ancestor of the other, and the genetic distance it reports is the one
    [_calculateGeneticDistance] gives: a number between 0 and 0.8, or NaN,
    which passes the test [geneticDistance > 0.8] as well. *)
Theorem compatible_graphs_are_close
        (this other : Organism) (now : Z) (c : Compatibility) :
  canMateWith this other now = Normal c ->
  compatible c = true ->
  (minMatingAge this <= age this)%Z /\ (minMatingAge other <= age other)%Z /\
  (cooldownPeriod this <= now - lastMating this)%Z /\
  includes (ancestors this) (dna_id (dna other)) = false /\
  includes (ancestors other) (dna_id (dna this)) = false /\
  includes (parents this) (dna_id (dna other)) = false /\
  includes (parents other) (dna_id (dna this)) = false /\
  exists d,
    geneticDistance c = Some d /\
    _calculateGeneticDistance this other = Normal d /\
    match d with Num q => 0 <= q <= 0.8 | NaN => True end.
Proof.
  unfold canMateWith.
  destruct (age this <? minMatingAge this)%Z eqn:A1; [intros [= <-]; discriminate|].
  destruct (age other <? minMatingAge other)%Z eqn:A2; [intros [= <-]; discriminate|].
  cbn [orb].
  destruct (now - lastMating this <? cooldownPeriod this)%Z eqn:A3;
    [intros [= <-]; discriminate|].
  destruct (includes (ancestors this) (dna_id (dna other))) eqn:I1;
    [intros [= <-]; discriminate|].
  destruct (includes (ancestors other) (dna_id (dna this))) eqn:I2;
    [intros [= <-]; discriminate|].
  destruct (includes (parents this) (dna_id (dna other))) eqn:I3;
    [intros [= <-]; discriminate|].
  destruct (includes (parents other) (dna_id (dna this))) eqn:I4;
    [intros [= <-]; discriminate|].
  cbn [orb].
  destruct (_calculateGeneticDistance this other) as [d|e] eqn:D; [|discriminate].
  destruct (num_ltb (Num 0.8) d) eqn:L; [intros [= <-]; discriminate|].
  destruct (_calculateHybridVigor this other) as [v|e]; [|discriminate].
  intros [= <-] _. cbn [geneticDistance].
  apply Z.ltb_ge in A1, A2, A3.
  repeat (split; [assumption || reflexivity|]).
  exists d. split; [reflexivity|]. split; [reflexivity|].
  pose proof (_calculateGeneticDistance_nonneg this other d D) as H0.
  destruct d as [q|]; [|exact I]. split; [exact H0|].
  cbn [num_ltb] in L. apply negb_false_iff in L. now apply Qle_bool_iff in L.
Qed.

Lemma compatible_graphs_are_close_witness :
  exists c q,
    canMateWith elder younger 130000 = Normal c /\
    geneticDistance c = Some (Num q) /\ 0 <= q <= 0.8.
Proof.
  assert (E : exists c q, canMateWith elder younger 130000 = Normal c /\
                          compatible c = true /\ geneticDistance c = Some (Num q))
    by (eexists; eexists; split; [vm_compute; reflexivity | split; reflexivity]).
  destruct E as (c & q & E & C & G). exists c, q. split; [exact E|]. split; [exact G|].
  destruct (compatible_graphs_are_close elder younger 130000 c E C)
    as (_ & _ & _ & _ & _ & _ & _ & d & Hd & _ & H).
  rewrite G in Hd. injection Hd as <-. exact H.
Defined.

End ReproductiveCoverage.
